(** * Secret Santa assignment service: a shallow embedding and its properties

    The development follows [src/services/secretSanta.ts] together with the
    Mongoose schemas of the [Assignment], [User] and [Event] models.

    - Part 1 embeds the pure helpers ([shuffleArray], [isDerangement],
      [generateDerangement]) over an explicit random source.
    - Part 2 embeds the document store, the transactional session used by
      [assignSecretSanta], and the read path [getUserAssignment].
      It also embeds the administrator's read [getAllAssignments], the
      handlers of [assignmentController.ts], [updateProfile] of
      [userController.ts] and the origin check of the CORS configuration.
    - Part 3 fixes concrete stores used to instantiate the statements.
    - Part 4 proves the lemmas about the embedding, and Part 5 states and
      proves the properties of the service.
    - Part 6 proves further properties of the service and of its
      callers. *)

From Stdlib Require Import Ascii.
From stdpp Require Import base numbers list strings pretty sorting.

Set Default Proof Using "Type".
Open Scope nat_scope.

(* ===================================================================== *)
(** * Part 1. Pure helpers                                                *)
(* ===================================================================== *)

(** ** The random source

    [Math.random()] is the only source of randomness.  The service uses it
    in exactly one shape, [Math.floor(Math.random() * n)], which selects an
    index in [0 .. n-1].  The source is modelled as an infinite tape of raw
    draws with a read position; the k-th call reads cell k.  The index that a
    raw draw selects among [n] is [draw mod n], so every index below [n] can
    be selected and no other (the floating-point product itself is not
    modelled). *)

Record Rng := mkRng { draws : nat → nat; pos : nat }.

Definition randomIndex (n : nat) (g : Rng) : nat * Rng :=
  (draws g (pos g) `mod` n, mkRng (draws g) (S (pos g))).

(** A tape that replays a finite list of draws and then yields [0]. *)
Definition tapeOf (l : list nat) : Rng := mkRng (λ k, nth k l 0) 0.

(** ** Exceptions and results *)

Inductive StoreOp :=
| OpStartSession | OpFindEvent | OpFindUsers | OpDeleteMany
| OpInsertMany | OpSaveEvent | OpCommit | OpFindOne | OpPopulate.

Inductive Exn :=
| Error (message : string)   (* [new Error(message)] thrown by the service *)
| MongoError (op : StoreOp)  (* the store driver rejected operation [op] *)
| DuplicateKey               (* a unique index rejected an inserted row *)
| ValidationError            (* a required path of an inserted row is missing *)
| TypeError.                 (* a property was read from undefined or null *)

Definition InsufficientParticipants : Exn :=
  Error "Need at least 2 participants for Secret Santa".
Definition EventNotFound : Exn := Error "Event not found".

Inductive Result (A : Type) :=
| Ok (a : A)
| Throw (e : Exn).
Arguments Ok {A} a.
Arguments Throw {A} e.

Definition isOk {A} (r : Result A) : bool :=
  match r with Ok _ => true | Throw _ => false end.

Section Helpers.
Context {T : Type} `{EqDecision T}.

(** [[a[i], a[j]] = [a[j], a[i]]]: both cells are read, then [a[i]] and
    [a[j]] are written in that order.  The shuffle only calls it with
    [j <= i < a.length] (lemmas [randomIndex_le] and [swap_in_range]
    below), so the branch for a missing cell is never taken. *)
Definition swap (i j : nat) (a : list T) : list T :=
  match a !! i, a !! j with
  | Some ai, Some aj => <[j:=ai]> (<[i:=aj]> a)
  | _, _ => a
  end.

(** The loop [for (let i = shuffled.length - 1; i > 0; i--)] of
    [shuffleArray], entered with counter [i]. *)
Fixpoint shuffleLoop (i : nat) (shuffled : list T) (g : Rng) : list T * Rng :=
  match i with
  | 0 => (shuffled, g)
  | S i' =>
      let '(j, g') := randomIndex (i + 1) g in
      shuffleLoop i' (swap i j shuffled) g'
  end.

(** Fisher-Yates shuffle of a copy of [array]. *)
Definition shuffleArray (array : list T) (g : Rng) : list T * Rng :=
  shuffleLoop (length array - 1) array g.

(** [array.indexOf(item)]: first position holding [item], else [-1]. *)
Fixpoint indexOfFrom (item : T) (a : list T) (i : Z) : Z :=
  match a with
  | [] => (-1)%Z
  | x :: a' => if decide (x = item) then i else indexOfFrom item a' (i + 1)%Z
  end.
Definition indexOf (item : T) (array : list T) : Z := indexOfFrom item array 0.

(** [array.map((_, i) => i.toString())] *)
Definition originalIndicesOf (array : list T) : list string :=
  imap (λ i _, pretty (Z.of_nat i)) array.

(** [array.map((item) => array.indexOf(item).toString())] *)
Definition shuffledIndicesOf (array : list T) : list string :=
  (λ item, pretty (indexOf item array)) <$> array.

(** The fallback of [generateDerangement]:
    [result = [...array]; last = result.pop()!; result.unshift(last)].
    It is reached only with [array.length >= 3]; on the empty array
    (where JavaScript would produce [[undefined]]) it is left empty. *)
Definition cyclicShift (array : list T) : list T :=
  match last array with
  | Some l => l :: removelast array
  | None => []
  end.
End Helpers.

(** [isDerangement(original, shuffled)]: scans [i = 0 .. original.length-1]
    and answers [false] at the first [i] with
    [original[i] === shuffled[i]].  A missing cell reads as [undefined],
    here [None]. *)
Definition isDerangement (original shuffled : list string) : bool :=
  forallb (λ i, negb (bool_decide (original !! i = shuffled !! i)))
          (seq 0 (length original)).

Section Generator.
Context {T : Type} `{EqDecision T}.

(** The loop [while (attempts < maxAttempts)], entered with
    [remaining = maxAttempts - attempts].  [None] means that the bound was
    exhausted. *)
Fixpoint attemptLoop (remaining : nat) (array : list T)
    (originalIndices : list string) (g : Rng) : option (list T) * Rng :=
  match remaining with
  | 0 => (None, g)
  | S remaining' =>
      let '(shuffled, g') := shuffleArray array g in
      let shuffledIndices := shuffledIndicesOf array in
      if isDerangement originalIndices shuffledIndices
      then (Some shuffled, g')
      else attemptLoop remaining' array originalIndices g'
  end.

Definition generateDerangementWith (maxAttempts : nat) (array : list T)
    (g : Rng) : Result (list T) * Rng :=
  match array with
  | [] | [_] => (Throw InsufficientParticipants, g)
  | [a0; a1] => (Ok [a1; a0], g)
  | _ =>
      let originalIndices := originalIndicesOf array in
      match attemptLoop maxAttempts array originalIndices g with
      | (Some shuffled, g') => (Ok shuffled, g')
      | (None, g') => (Ok (cyclicShift array), g')
      end
  end.

(** [generateDerangement(array, maxAttempts = 1000)] as the service calls
    it. *)
Definition generateDerangement (array : list T) (g : Rng)
    : Result (list T) * Rng :=
  generateDerangementWith 1000 array g.
End Generator.

(** A derangement of [original] (glossary): a permutation of it in which no
    element stays at its index. *)
Definition Derangement {T} (original result : list T) : Prop :=
  result ≡ₚ original ∧
  ∀ i x y, original !! i = Some x → result !! i = Some y → x ≠ y.

(* ===================================================================== *)
(** * Part 2. The document store and the service                          *)
(* ===================================================================== *)

(** ** Documents

    Object identifiers are modelled as naturals.  Timestamps and the fields
    of [User] that the service never reads (password hash, Google id, role)
    are left out. *)

Definition ObjectId := nat.

Inductive EventStatus := draft | open | closed | assigned.

Record IEvent := mkEvent {
  ev_id : ObjectId;
  ev_name : string;
  ev_budgetLimit : nat;
  ev_registrationDeadline : nat;
  ev_status : EventStatus
}.

Record IWishlist := mkWishlist { wishText : string; link : string }.

Record IUser := mkUser {
  u_id : ObjectId;
  u_name : string;
  u_email : string;
  u_wishlist : IWishlist;
  u_eventId : option ObjectId
}.

Record IAssignment := mkAssignment {
  a_id : ObjectId;
  a_eventId : ObjectId;
  a_santaUserId : ObjectId;
  a_receiverUserId : ObjectId;
  a_receiverNumber : nat
}.

(** The plain object that [assignSecretSanta] builds for each santa before
    it is handed to [insertMany]; [shuffledNumbers[index]] may read as
    [undefined]. *)
Record AssignmentInput := mkInput {
  in_eventId : ObjectId;
  in_santaUserId : ObjectId;
  in_receiverUserId : ObjectId;
  in_receiverNumber : option nat
}.

(** [indexOf] compares documents with [===], that is by reference.  Two
    different documents of a collection differ in their [_id], so equality
    of the records decides the same relation. *)
Global Instance EventStatus_eq_dec : EqDecision EventStatus.
Proof. solve_decision. Defined.
Global Instance IWishlist_eq_dec : EqDecision IWishlist.
Proof. solve_decision. Defined.
Global Instance IUser_eq_dec : EqDecision IUser.
Proof. solve_decision. Defined.
Global Instance IAssignment_eq_dec : EqDecision IAssignment.
Proof. solve_decision. Defined.

(** The three collections.  Each is kept in insertion order, which is the
    order in which an unsorted [find] returns its documents. *)
Record Db := mkDb {
  events : list IEvent;
  users : list IUser;
  assignments : list IAssignment
}.

(** What persists between calls: the committed store, the generator of
    fresh object identifiers and the random source. *)
Record World := mkWorld { db : Db; nextOid : ObjectId; rng : Rng }.

(** ** Sessions and transactions

    While a transaction is open, every operation that carries the session
    reads and writes the session's working copy; [commitTransaction] is the
    only step that publishes the working copy, and [abortTransaction]
    discards it. *)
Record TxState := mkTx {
  committed : Db;
  working : Db;
  tx_nextOid : ObjectId;
  tx_rng : Rng
}.

Definition Tx (A : Type) : Type := TxState → Result A * TxState.

Definition ret {A} (a : A) : Tx A := λ s, (Ok a, s).
Definition throw {A} (e : Exn) : Tx A := λ s, (Throw e, s).
Definition bind {A B} (m : Tx A) (k : A → Tx B) : Tx B :=
  λ s, match m s with
       | (Ok a, s') => k a s'
       | (Throw e, s') => (Throw e, s')
       end.

Notation "'let*' x ':=' m 'in' k" := (bind m (λ x, k))
  (at level 10, x binder, m at level 100, k at level 200,
   format "'[v' 'let*'  x  ':='  m  'in' '/' k ']'").
Notation "m ';;;' k" := (bind m (λ _, k))
  (at level 100, k at level 200, right associativity).

Definition startTransaction (w : World) : TxState :=
  mkTx (db w) (db w) (nextOid w) (rng w).
Definition abortTransaction (s : TxState) : TxState :=
  mkTx (committed s) (committed s) (tx_nextOid s) (tx_rng s).
Definition endSession (s : TxState) : World :=
  mkWorld (committed s) (tx_nextOid s) (tx_rng s).

(** ** Unique indexes of the [Assignment] collection

    [{eventId, receiverNumber}], [{eventId, santaUserId}] and
    [{eventId, receiverUserId}] are unique. *)
Definition collides (a b : IAssignment) : Prop :=
  a_eventId a = a_eventId b ∧
  (a_receiverNumber a = a_receiverNumber b ∨
   a_santaUserId a = a_santaUserId b ∨
   a_receiverUserId a = a_receiverUserId b).

Global Instance collides_dec a b : Decision (collides a b).
Proof. unfold collides. apply _. Defined.

(** Rows are written one after the other; a row that collides with a row
    already present is rejected. *)
Fixpoint insertRows (rows : list IAssignment) (coll : list IAssignment)
    : Result (list IAssignment) :=
  match rows with
  | [] => Ok coll
  | r :: rows' =>
      if decide (Exists (collides r) coll) then Throw DuplicateKey
      else insertRows rows' (coll ++ [r])
  end.

(** Mongoose turns each input object into a document with a fresh [_id];
    a document whose required [receiverNumber] is missing fails
    validation. *)
Fixpoint toDocuments (oid : ObjectId) (inputs : list AssignmentInput)
    : list (option IAssignment) :=
  match inputs with
  | [] => []
  | i :: inputs' =>
      ((λ n, mkAssignment oid (in_eventId i) (in_santaUserId i)
                          (in_receiverUserId i) n) <$> in_receiverNumber i)
      :: toDocuments (S oid) inputs'
  end.

(** Validation of the documents: all of them pass, or the call is
    rejected. *)
Fixpoint validated (docs : list (option IAssignment))
    : option (list IAssignment) :=
  match docs with
  | [] => Some []
  | doc :: docs' =>
      match doc, validated docs' with
      | Some row, Some rows => Some (row :: rows)
      | _, _ => None
      end
  end.

(** [santas.map((santa, index) => ({eventId, santaUserId: santa._id,
    receiverUserId: receivers[index]._id,
    receiverNumber: shuffledNumbers[index]}))], entered at [index].
    Reading [_id] of a missing receiver throws. *)
Fixpoint buildAssignments (eventId : ObjectId) (index : nat)
    (santas receivers : list IUser) (shuffledNumbers : list nat)
    : Result (list AssignmentInput) :=
  match santas with
  | [] => Ok []
  | santa :: santas' =>
      match receivers !! index with
      | None => Throw TypeError
      | Some receiver =>
          match buildAssignments eventId (S index) santas' receivers
                                 shuffledNumbers with
          | Throw e => Throw e
          | Ok rest =>
              Ok (mkInput eventId (u_id santa) (u_id receiver)
                          (shuffledNumbers !! index) :: rest)
          end
      end
  end.

Definition setStatus (st : EventStatus) (e : IEvent) : IEvent :=
  mkEvent (ev_id e) (ev_name e) (ev_budgetLimit e)
          (ev_registrationDeadline e) st.

Section Service.
(** Fault injection: [faults op = true] makes the store reject [op]. *)
Context (faults : StoreOp → bool).

Definition storeCall (op : StoreOp) : Tx unit :=
  if faults op then throw (MongoError op) else ret tt.

(** [Event.findById(eventId).session(session)] *)
Definition Event_findById (eventId : ObjectId) : Tx (option IEvent) :=
  storeCall OpFindEvent;;;
  λ s, (Ok (head (filter (λ e, ev_id e = eventId) (events (working s)))), s).

(** [User.find({ eventId }).session(session)] *)
Definition User_find (eventId : ObjectId) : Tx (list IUser) :=
  storeCall OpFindUsers;;;
  λ s, (Ok (filter (λ u, u_eventId u = Some eventId) (users (working s))), s).

(** [Assignment.deleteMany({ eventId }).session(session)] *)
Definition Assignment_deleteMany (eventId : ObjectId) : Tx unit :=
  storeCall OpDeleteMany;;;
  λ s, (Ok tt,
        mkTx (committed s)
             (mkDb (events (working s)) (users (working s))
                   (filter (λ a, a_eventId a ≠ eventId)
                           (assignments (working s))))
             (tx_nextOid s) (tx_rng s)).

(** [Assignment.insertMany(assignments, { session })] *)
Definition Assignment_insertMany (inputs : list AssignmentInput) : Tx unit :=
  λ s,
    let docs := toDocuments (tx_nextOid s) inputs in
    let s1 := mkTx (committed s) (working s)
                   (tx_nextOid s + length inputs) (tx_rng s) in
    match validated docs with
    | None => (Throw ValidationError, s1)
    | Some rows =>
        if faults OpInsertMany then (Throw (MongoError OpInsertMany), s1)
        else
          match insertRows rows (assignments (working s1)) with
          | Throw e => (Throw e, s1)
          | Ok coll =>
              (Ok tt,
               mkTx (committed s1)
                    (mkDb (events (working s1)) (users (working s1)) coll)
                    (tx_nextOid s1) (tx_rng s1))
          end
    end.

(** [event.save({ session })] after [event.status = 'assigned']: the
    document with the event's [_id] is overwritten. *)
Definition Event_save (event : IEvent) : Tx unit :=
  storeCall OpSaveEvent;;;
  λ s, (Ok tt,
        mkTx (committed s)
             (mkDb ((λ e, if decide (ev_id e = ev_id event) then event else e)
                      <$> events (working s))
                   (users (working s)) (assignments (working s)))
             (tx_nextOid s) (tx_rng s)).

(** [session.commitTransaction()] *)
Definition commitTransaction : Tx unit :=
  storeCall OpCommit;;;
  λ s, (Ok tt, mkTx (working s) (working s) (tx_nextOid s) (tx_rng s)).

(** A computation that only uses the random source. *)
Definition withRng {A} (f : Rng → A * Rng) : Tx A :=
  λ s, let '(a, g') := f (tx_rng s) in
       (Ok a, mkTx (committed s) (working s) (tx_nextOid s) g').

Definition liftResult {A} (r : Result A) : Tx A :=
  match r with Ok a => ret a | Throw e => throw e end.

(** The [try] block of [assignSecretSanta]. *)
Definition assignBody (eventId : ObjectId) : Tx unit :=
  let* event := Event_findById eventId in
  match event with
  | None => throw EventNotFound
  | Some event =>
      let* participants := User_find eventId in
      if decide (length participants < 2)
      then throw InsufficientParticipants
      else
        Assignment_deleteMany eventId;;;
        let santas := participants in
        let* receivers0 := withRng (generateDerangement participants) in
        let* receivers := liftResult receivers0 in
        let numbers := (λ i, i + 1) <$> seq 0 (length participants) in
        let* shuffledNumbers := withRng (shuffleArray numbers) in
        let* assignments :=
          liftResult (buildAssignments eventId 0 santas receivers
                                       shuffledNumbers) in
        Assignment_insertMany assignments;;;
        Event_save (setStatus assigned event);;;
        commitTransaction
  end.

(** [assignSecretSanta(eventId)]: the session is opened outside the
    [try]; the [catch] aborts the transaction and rethrows; the [finally]
    ends the session. *)
Definition assignSecretSanta (eventId : ObjectId) (w : World)
    : Result unit * World :=
  if faults OpStartSession then (Throw (MongoError OpStartSession), w)
  else
    match assignBody eventId (startTransaction w) with
    | (Ok tt, s) => (Ok tt, endSession s)
    | (Throw e, s) => (Throw e, endSession (abortTransaction s))
    end.

(** ** The participant-scoped read *)

Record UserAssignment := mkUserAssignment {
  receiverNumber : nat;
  receiverWishlist : IWishlist
}.

(** The receiver document as [populate('receiverUserId', 'wishlist')]
    selects it: the [_id] and the [wishlist] path only. *)
Record PopulatedReceiver := mkPopulated {
  p_id : ObjectId;
  p_wishlist : IWishlist
}.

(** [populate] looks the reference up in [users]; a dangling reference
    populates as [null]. *)
Definition populateReceiver (ref : ObjectId) (d : Db)
    : option PopulatedReceiver :=
  (λ u, mkPopulated (u_id u) (u_wishlist u))
    <$> head (filter (λ u, u_id u = ref) (users d)).

(** [getUserAssignment(eventId, userId)]; it runs outside any session, on
    the committed store. *)
Definition getUserAssignment (eventId userId : ObjectId) (d : Db)
    : Result (option UserAssignment) :=
  if faults OpFindOne then Throw (MongoError OpFindOne)
  else
    match head (filter (λ a, a_eventId a = eventId ∧ a_santaUserId a = userId)
                       (assignments d)) with
    | None => Ok None
    | Some assignment =>
        if faults OpPopulate then Throw (MongoError OpPopulate)
        else
          match populateReceiver (a_receiverUserId assignment) d with
          | None => Throw TypeError
          | Some receiver =>
              Ok (Some (mkUserAssignment (a_receiverNumber assignment)
                                         (p_wishlist receiver)))
          end
    end.
End Service.

(** ** Queries used to state the properties *)

(** [User.find({ eventId })] on a store. *)
Definition participantsOf (eventId : ObjectId) (d : Db) : list IUser :=
  filter (λ u, u_eventId u = Some eventId) (users d).

(** [Assignment.find({ eventId })] on a store. *)
Definition rowsOf (eventId : ObjectId) (d : Db) : list IAssignment :=
  filter (λ a, a_eventId a = eventId) (assignments d).

(** [Event.findById(eventId)] on a store. *)
Definition eventOf (eventId : ObjectId) (d : Db) : option IEvent :=
  head (filter (λ e, ev_id e = eventId) (events d)).

Definition noFaults : StoreOp → bool := λ _, false.

(** The events after [event.save] of the event [event] with status
    [assigned]. *)
Definition savedEvents (event : IEvent) (d : Db) : list IEvent :=
  (λ e, if decide (ev_id e = ev_id (setStatus assigned event))
        then setStatus assigned event else e) <$> events d.

(** The assignment rows of the other events. *)
Definition otherRows (eventId : ObjectId) (d : Db) : list IAssignment :=
  filter (λ a, a_eventId a ≠ eventId) (assignments d).

(** The effect of a successful run, stated on the stored rows. *)
Record RunEffect (eventId : ObjectId) (w w' : World) (event : IEvent)
    (g1 : Rng) (rows : list IAssignment) : Prop := {
  eff_event : eventOf eventId (db w) = Some event;
  eff_count : 2 ≤ length (participantsOf eventId (db w));
  eff_events : events (db w') = savedEvents event (db w);
  eff_users : users (db w') = users (db w);
  eff_assignments : assignments (db w') = otherRows eventId (db w) ++ rows;
  eff_rowsOf : rowsOf eventId (db w') = rows;
  eff_others : otherRows eventId (db w') = otherRows eventId (db w);
  eff_nextOid :
    nextOid w' = nextOid w + length (participantsOf eventId (db w));
  eff_ids :
    a_id <$> rows = seq (nextOid w) (length (participantsOf eventId (db w)));
  eff_eventId : Forall (λ r, a_eventId r = eventId) rows;
  eff_santas : a_santaUserId <$> rows = u_id <$> participantsOf eventId (db w);
  eff_receivers :
    a_receiverUserId <$> rows
    = u_id <$> cyclicShift (participantsOf eventId (db w));
  eff_numbers :
    a_receiverNumber <$> rows
    = (shuffleArray (seq 1 (length (participantsOf eventId (db w)))) g1).1
}.

(** [d2] is [d1] with every user identifier renamed by [rho] (in the users
    and in the references of the assignment rows) and with arbitrary other
    names and e-mail addresses; wishlists and numbers agree. *)
Definition sameUpToIdentity (rho : ObjectId → ObjectId) (d1 d2 : Db) : Prop :=
  Forall2 (λ u1 u2, u_id u2 = rho (u_id u1) ∧ u_wishlist u2 = u_wishlist u1)
          (users d1) (users d2) ∧
  Forall2 (λ a1 a2, a_eventId a2 = a_eventId a1 ∧
                    a_santaUserId a2 = rho (a_santaUserId a1) ∧
                    a_receiverUserId a2 = rho (a_receiverUserId a1) ∧
                    a_receiverNumber a2 = a_receiverNumber a1)
          (assignments d1) (assignments d2).

(** ** The administrator's read *)

(** A user as [populate(path, 'name email wishlist')] selects it. *)
Record Party := mkParty {
  party_id : ObjectId;
  party_name : string;
  party_email : string;
  party_wishlist : IWishlist
}.

(** One entry of the full mapping returned by [getAllAssignments]. *)
Record FullAssignment := mkFull {
  full_santa : Party;
  full_receiver : Party;
  full_receiverNumber : nat
}.

Definition partyOf (u : IUser) : Party :=
  mkParty (u_id u) (u_name u) (u_email u) (u_wishlist u).

(** [populate]: the first user with the referenced [_id], or [null]. *)
Definition populateParty (ref : ObjectId) (d : Db) : option Party :=
  partyOf <$> head (filter (λ u, u_id u = ref) (users d)).

(** The callback of [assignments.map(...)] in [getAllAssignments]: reading
    [_id] from a reference that populated as [null] throws. *)
Definition toFullAssignment (d : Db) (a : IAssignment) : Result FullAssignment :=
  match populateParty (a_santaUserId a) d with
  | None => Throw TypeError
  | Some santa =>
      match populateParty (a_receiverUserId a) d with
      | None => Throw TypeError
      | Some receiver => Ok (mkFull santa receiver (a_receiverNumber a))
      end
  end.

(** [array.map(f)] for a callback that may throw: the first exception
    ends the call. *)
Fixpoint mapResult {A B} (f : A → Result B) (l : list A) : Result (list B) :=
  match l with
  | [] => Ok []
  | x :: l' =>
      match f x with
      | Throw e => Throw e
      | Ok y =>
          match mapResult f l' with
          | Throw e => Throw e
          | Ok ys => Ok (y :: ys)
          end
      end
  end.

(** The order of [.sort({ receiverNumber: 1 })]. *)
Definition byReceiverNumber (a b : IAssignment) : Prop :=
  a_receiverNumber a ≤ a_receiverNumber b.

Global Instance byReceiverNumber_dec a b : Decision (byReceiverNumber a b).
Proof. unfold byReceiverNumber. apply _. Defined.

(** [getAllAssignments(eventId)].  The store operations are labelled
    [OpFindOne] (the read of the [Assignment] collection) and [OpPopulate]
    in the fault oracle. *)
Definition getAllAssignments (faults : StoreOp → bool) (eventId : ObjectId)
    (d : Db) : Result (list FullAssignment) :=
  if faults OpFindOne then Throw (MongoError OpFindOne)
  else
    let found :=
      merge_sort byReceiverNumber
                 (filter (λ a, a_eventId a = eventId) (assignments d)) in
    if faults OpPopulate then Throw (MongoError OpPopulate)
    else mapResult (toFullAssignment d) found.

(** ** The handlers of [assignmentController.ts]

    A handler is modelled on requests whose [:id] parameter and whose
    authenticated [userId] are well-formed object identifiers.  It returns
    the response it sends: the status code ([res.json] alone sends 200) and
    the body. *)

(** [User.findById] on a store. *)
Definition userOf (userId : ObjectId) (d : Db) : option IUser :=
  head (filter (λ u, u_id u = userId) (users d)).

Definition dquote : string := String "034"%char "".
Definition newline : string := String "010"%char "".

(** The bodies of the responses.  [ErrorsBody] is [{ errors: ... }] of the
    validation chain; [ProfileBody] carries the [id], [name], [email] and
    [wishlist] of a user (the [role] path is not modelled). *)
Inductive Body :=
| MessageBody (message : string)
| ErrorsBody
| AssignmentBody (assignment : UserAssignment)
| AssignmentsBody (assignments : list FullAssignment)
| CsvBody (contentType contentDisposition csv : string)
| ProfileBody (user : Party).

Record Response := mkResponse { statusCode : nat; body : Body }.

Definition json (b : Body) : Response := mkResponse 200 b.
Definition status (code : nat) (b : Body) : Response := mkResponse code b.

(** [str.replace(/,/g, ' ')] *)
Fixpoint replaceCommas (s : string) : string :=
  match s with
  | EmptyString => EmptyString
  | String c s' =>
      String (if Ascii.eqb c ","%char then " "%char else c) (replaceCommas s')
  end.


Definition csvHeader : string :=
  "Santa Name,Santa Email,Receiver Number,Receiver Name,Receiver Email,Receiver Wishlist"
  +:+ newline.

(** The callback of [assignments.map(...)] in [exportAssignmentsCSV]. *)
Definition csvRow (a : FullAssignment) : string :=
  let santaName := replaceCommas (party_name (full_santa a)) in
  let santaEmail := party_email (full_santa a) in
  let receiverNumber := full_receiverNumber a in
  let receiverName := replaceCommas (party_name (full_receiver a)) in
  let receiverEmail := party_email (full_receiver a) in
  let wishlistText := replaceCommas (wishText (party_wishlist (full_receiver a))) in
  santaName +:+ "," +:+ santaEmail +:+ "," +:+ pretty receiverNumber +:+ ","
  +:+ receiverName +:+ "," +:+ receiverEmail +:+ ","
  +:+ dquote +:+ wishlistText +:+ dquote.

(** The number of occurrences of a character, used to count the column
    separators of a CSV row. *)
Fixpoint countChar (c : ascii) (s : string) : nat :=
  match s with
  | EmptyString => 0
  | String c' s' => (if Ascii.eqb c' c then 1 else 0) + countChar c s'
  end.

Section Handlers.
(** [libraryMessage e] is the [message] of an exception that was not
    created by [new Error(...)] in the service. *)
Context (libraryMessage : Exn → string).
(** [faultsC] rejects the store calls of the handler itself, [faultsS]
    those of the service function it calls. *)
Context (faultsC faultsS : StoreOp → bool).

Definition messageOf (e : Exn) : string :=
  match e with
  | Error message => message
  | _ => libraryMessage e
  end.

(** [error.message || fallback] *)
Definition messageOr (e : Exn) (fallback : string) : string :=
  if decide (messageOf e = "") then fallback else messageOf e.

(** [triggerAssignment]: [POST /:id/assign]. *)
Definition triggerAssignment (id : ObjectId) (w : World) : Response * World :=
  if faultsC OpFindEvent
  then (status 500 (MessageBody (messageOr (MongoError OpFindEvent)
                                           "Error creating assignments")), w)
  else
    match eventOf id (db w) with
    | None => (status 404 (MessageBody "Event not found"), w)
    | Some event =>
        if decide (ev_status event = assigned)
        then (status 400 (MessageBody
                "Assignments already completed for this event"), w)
        else
          match assignSecretSanta faultsS (ev_id event) w with
          | (Ok tt, w') =>
              (json (MessageBody
                 "Secret Santa assignments completed successfully"), w')
          | (Throw e, w') =>
              (status 500 (MessageBody
                 (messageOr e "Error creating assignments")), w')
          end
    end.

(** [getMyAssignment]: [GET /:id/assignments/me]; [user] is [req.user]. *)
Definition getMyAssignment (user : option ObjectId) (id : ObjectId) (d : Db)
    : Response :=
  match user with
  | None => status 401 (MessageBody "Not authenticated")
  | Some userId =>
      if faultsC OpFindEvent
      then status 500 (MessageBody "Error fetching assignment")
      else
        match eventOf id d with
        | None => status 404 (MessageBody "Event not found")
        | Some event =>
            if decide (ev_status event ≠ assigned)
            then status 400 (MessageBody
                   "Assignments have not been completed yet")
            else
              match getUserAssignment faultsS (ev_id event) userId d with
              | Throw _ => status 500 (MessageBody "Error fetching assignment")
              | Ok None =>
                  status 404 (MessageBody
                    "No assignment found. Make sure you joined the event.")
              | Ok (Some assignment) =>
                  json (AssignmentBody
                          (mkUserAssignment (receiverNumber assignment)
                                            (receiverWishlist assignment)))
              end
        end
  end.


End Handlers.

(** ** [updateProfile] of [userController.ts] *)

(** [req.body.wishlist] when it is truthy: its two optional paths. *)
Record WishlistPatch := mkPatch {
  patch_wishText : option string;
  patch_link : option string
}.

(** The request as the handler sees it after the validation chain ran:
    [validationPassed] is [errors.isEmpty()], [req_user] is [req.user],
    [req_name] is [req.body.name] and [req_wishlist] is [req.body.wishlist]
    if truthy.  The chain has already trimmed [req.body.name], so the
    [trim] setter of the schema does not change it on assignment. *)
Record ProfileRequest := mkProfileRequest {
  validationPassed : bool;
  req_user : option ObjectId;
  req_name : option string;
  req_wishlist : option WishlistPatch
}.

(** The store calls of [updateProfile] that can be rejected. *)
Record ProfileFaults := mkProfileFaults {
  failFindUser : bool;
  failFindEvent : bool;
  failSaveUser : bool
}.

(** [value || fallback] on an optional string: [undefined] and the empty
    string are falsy. *)
Definition orElse (value : option string) (fallback : string) : string :=
  match value with
  | Some v => if decide (v = "") then fallback else v
  | None => fallback
  end.

(** The assignments [if (name) user.name = name] and
    [if (wishlist) user.wishlist = {...}]. *)
Definition applyProfile (r : ProfileRequest) (user : IUser) : IUser :=
  mkUser (u_id user)
         (orElse (req_name r) (u_name user))
         (u_email user)
         (match req_wishlist r with
          | Some wishlist =>
              mkWishlist (orElse (patch_wishText wishlist)
                                 (wishText (u_wishlist user)))
                         (orElse (patch_link wishlist)
                                 (link (u_wishlist user)))
          | None => u_wishlist user
          end)
         (u_eventId user).

(** [user.save()]: the document with the user's [_id] is overwritten. *)
Definition saveUser (user : IUser) (d : Db) : Db :=
  mkDb (events d)
       ((λ u, if decide (u_id u = u_id user) then user else u) <$> users d)
       (assignments d).

(** Is the wishlist locked: the user belongs to an event that exists and
    whose status is [assigned], and the request carries a wishlist. *)
Definition wishlistLocked (r : ProfileRequest) (user : IUser) (d : Db)
    : bool :=
  match u_eventId user with
  | Some eventId =>
      match eventOf eventId d with
      | Some event =>
          bool_decide (ev_status event = assigned)
          && bool_decide (is_Some (req_wishlist r))
      | None => false
      end
  | None => false
  end.

(** [updateProfile]: [PUT /users/me]. *)
Definition updateProfile (faults : ProfileFaults) (r : ProfileRequest)
    (d : Db) : Response * Db :=
  if negb (validationPassed r) then (status 400 ErrorsBody, d)
  else
    match req_user r with
    | None => (status 401 (MessageBody "Not authenticated"), d)
    | Some userId =>
        if failFindUser faults
        then (status 500 (MessageBody "Error updating profile"), d)
        else
          match userOf userId d with
          | None => (status 404 (MessageBody "User not found"), d)
          | Some user =>
              if bool_decide (is_Some (u_eventId user)) && failFindEvent faults
              then (status 500 (MessageBody "Error updating profile"), d)
              else if wishlistLocked r user d
              then (status 400 (MessageBody
                      "Cannot update wishlist after assignments have been made"),
                    d)
              else if failSaveUser faults
              then (status 500 (MessageBody "Error updating profile"), d)
              else
                let user' := applyProfile r user in
                (json (ProfileBody (partyOf user')), saveUser user' d)
          end
    end.

(** ** The origin check of the server's CORS configuration

    [allowedOrigins] is the list obtained from the configuration after
    splitting, trimming and filtering. *)

(** [s.startsWith(sub)] *)
Fixpoint startsWith (s sub : string) : bool :=
  match sub, s with
  | EmptyString, _ => true
  | String c sub', String c' s' => Ascii.eqb c c' && startsWith s' sub'
  | String _ _, EmptyString => false
  end.

(** [s.includes(sub)] *)
Fixpoint includes (s sub : string) : bool :=
  startsWith s sub ||
  match s with
  | EmptyString => false
  | String _ s' => includes s' sub
  end.

(** [if (!allowedOrigins.includes('http://localhost:5173'))
      allowedOrigins.push('http://localhost:5173')] *)
Definition withLocalhost (allowedOrigins : list string) : list string :=
  if decide ("http://localhost:5173" ∈ allowedOrigins) then allowedOrigins
  else allowedOrigins ++ ["http://localhost:5173"].

(** The [origin] callback: [true] stands for [callback(null, true)],
    [false] for [callback(new Error('Not allowed by CORS'))].  A request
    without [Origin] header has [origin = None]. *)
Definition originAllowed (allowedOrigins : list string)
    (origin : option string) : bool :=
  match origin with
  | None => true
  | Some origin =>
      if decide (origin = "") then true
      else existsb (λ allowed, includes origin allowed || includes allowed origin)
                   (withLocalhost allowedOrigins)
  end.

(* ===================================================================== *)
(** * Part 3. A concrete store                                            *)
(* ===================================================================== *)

(** Event 1 has the five participants of the test suite, event 2 has two,
    event 3 has a single participant and a stale assignment row. *)
Module Scenario.
Definition participant (i : ObjectId) (n e wish : string) (ev : ObjectId)
    : IUser :=
  mkUser i n e (mkWishlist wish "") (Some ev).

Definition alice := participant 11 "Alice" "alice@test.com" "books" 1.
Definition bob := participant 12 "Bob" "bob@test.com" "games" 1.
Definition charlie := participant 13 "Charlie" "charlie@test.com" "tea" 1.
Definition david := participant 14 "David" "david@test.com" "socks" 1.
Definition eve := participant 15 "Eve" "eve@test.com" "pens" 1.
Definition user1 := participant 21 "User1" "user1@test.com" "I want books" 2.
Definition user2 := participant 22 "User2" "user2@test.com" "I want games" 2.
Definition lonely := participant 31 "Lonely User" "lonely@test.com" "" 3.

Definition store : Db :=
  mkDb [mkEvent 1 "Test Event" 50 0 open;
        mkEvent 2 "Small Event" 25 0 open;
        mkEvent 3 "Tiny Event" 25 0 closed]
       [alice; bob; charlie; david; eve; user1; user2; lonely]
       [mkAssignment 900 3 31 32 1].

Definition world : World :=
  mkWorld store 1000 (tapeOf [3; 1; 4; 1; 5; 9; 2; 6; 5; 3; 5; 8]).

(** The store rejects [insertMany] and nothing else. *)
Definition insertFails : StoreOp → bool :=
  λ op, match op with OpInsertMany => true | _ => false end.

(** The store after a run on event 2. *)
Definition assignedStore : Db :=
  Eval vm_compute in db (assignSecretSanta noFaults 2 world).2.

(** [assignedStore] with every user identifier shifted by 100 and with
    other names and addresses. *)
Definition masked : Db :=
  mkDb (events assignedStore)
       ((λ u, mkUser (u_id u + 100) "?" "?" (u_wishlist u) (u_eventId u))
          <$> users assignedStore)
       ((λ a, mkAssignment (a_id a) (a_eventId a) (a_santaUserId a + 100)
                           (a_receiverUserId a + 100) (a_receiverNumber a))
          <$> assignments assignedStore).
End Scenario.

(** Further stores, used to instantiate the properties of the callers. *)
Module Cases.
(** Event 2 of [Scenario.store] with its two rows stored in descending
    order of receiver number. *)
Definition reversedStore : Db :=
  mkDb (events Scenario.store) (users Scenario.store)
       [mkAssignment 1 2 21 22 2; mkAssignment 2 2 22 21 1].

(** [Scenario.store] with event 2 marked [assigned] by hand. *)
Definition markedStore : Db :=
  mkDb [mkEvent 1 "Test Event" 50 0 open;
        mkEvent 2 "Small Event" 25 0 assigned;
        mkEvent 3 "Tiny Event" 25 0 closed]
       (users Scenario.store)
       [mkAssignment 1 2 21 22 2; mkAssignment 2 2 22 21 1].

(** [user2] sends a new wish text and an empty link. *)
Definition wishRequest : ProfileRequest :=
  mkProfileRequest true (Some 22) None
                   (Some (mkPatch (Some "I want puzzles") (Some ""))).

Definition noProfileFaults : ProfileFaults := mkProfileFaults false false false.

Definition plainMessage : Exn → string := λ _, "store error".
End Cases.

(* ===================================================================== *)
(** * Part 4. Lemmas                                                      *)
(* ===================================================================== *)

(** ** The shuffle *)

Lemma randomIndex_le i g : (randomIndex (i + 1) g).1 ≤ i.
Proof.
  unfold randomIndex; simpl.
  pose proof (Nat.mod_upper_bound (draws g (pos g)) (i + 1)). lia.
Qed.

Section ShuffleFacts.
Context {T : Type}.
Implicit Types (a array : list T).

Lemma swap_in_range i j a :
  i < length a → j ≤ i →
  ∃ ai aj, a !! i = Some ai ∧ a !! j = Some aj ∧
           swap i j a = <[j:=ai]> (<[i:=aj]> a).
Proof.
  intros Hi Hj.
  destruct (lookup_lt_is_Some_2 a i Hi) as [ai Hai].
  destruct (lookup_lt_is_Some_2 a j ltac:(lia)) as [aj Haj].
  exists ai, aj. unfold swap. by rewrite Hai, Haj.
Qed.

Lemma swap_Permutation i j a : swap i j a ≡ₚ a.
Proof.
  unfold swap.
  destruct (a !! i) as [ai|] eqn:Hi; [|done].
  destruct (a !! j) as [aj|] eqn:Hj; [|done].
  by apply Permutation_insert_swap.
Qed.

Lemma shuffleLoop_Permutation i a g : (shuffleLoop i a g).1 ≡ₚ a.
Proof.
  revert a g. induction i as [|i IH]; intros a g; simpl; [done|].
  rewrite IH. apply swap_Permutation.
Qed.

Lemma shuffleArray_Permutation array g : (shuffleArray array g).1 ≡ₚ array.
Proof. apply shuffleLoop_Permutation. Qed.

Lemma shuffleArray_length array g :
  length (shuffleArray array g).1 = length array.
Proof. apply Permutation_length, shuffleArray_Permutation. Qed.
End ShuffleFacts.

(** ** The cyclic shift *)

Section ShiftFacts.
Context {T : Type}.
Implicit Types (array init : list T).

Lemma cyclicShift_snoc init x : cyclicShift (init ++ [x]) = x :: init.
Proof. unfold cyclicShift. by rewrite last_snoc, removelast_last. Qed.

Lemma snoc_of_nonempty array :
  array ≠ [] → ∃ init x, array = init ++ [x].
Proof.
  intros Hne. destruct (last array) as [x|] eqn:Hl.
  - apply last_Some in Hl as [init ->]. eauto.
  - apply last_None in Hl. done.
Qed.

Lemma cyclicShift_Permutation array : cyclicShift array ≡ₚ array.
Proof.
  destruct array as [|a array]; [done|].
  destruct (snoc_of_nonempty (a :: array)) as (init & x & ->); [done|].
  rewrite cyclicShift_snoc. by rewrite Permutation_app_comm.
Qed.

Lemma cyclicShift_moves_every_index array :
  NoDup array → 2 ≤ length array →
  ∀ i x y, array !! i = Some x → cyclicShift array !! i = Some y → x ≠ y.
Proof.
  intros Hnd Hlen i x y Hx Hy.
  destruct (snoc_of_nonempty array) as (init & l & ->).
  { intros ->. simpl in Hlen. lia. }
  rewrite cyclicShift_snoc in Hy.
  rewrite length_app in Hlen; simpl in Hlen.
  destruct i as [|k]; simpl in Hy.
  - injection Hy as Hy. intros Hxy.
    assert (l = x) as -> by congruence.
    assert (i2 : (init ++ [x]) !! length init = Some x).
    { by rewrite lookup_app_r, Nat.sub_diag by lia. }
    pose proof (NoDup_lookup _ _ _ _ Hnd Hx i2). lia.
  - intros Hxy. rewrite <- Hxy in Hy.
    assert (Hk : (init ++ [l]) !! k = Some x).
    { rewrite lookup_app_l; [done|]. by eapply lookup_lt_Some. }
    pose proof (NoDup_lookup _ _ _ _ Hnd Hx Hk). lia.
Qed.

Lemma cyclicShift_Derangement array :
  NoDup array → 2 ≤ length array → Derangement array (cyclicShift array).
Proof.
  intros Hnd Hlen. split.
  - apply cyclicShift_Permutation.
  - by apply cyclicShift_moves_every_index.
Qed.
End ShiftFacts.

(** ** The generator *)

Section GeneratorFacts.
Context {T : Type} `{EqDecision T}.
Implicit Types (array : list T).

Lemma indexOf_head (x : T) array : indexOf x (x :: array) = 0%Z.
Proof. unfold indexOf. simpl. by rewrite decide_True. Qed.

(** The test of [generateDerangement] compares the positions of the
    elements of [array] in [array] with [0, 1, ...]: already at index 0
    the two strings agree. *)
Lemma index_test_rejects array :
  array ≠ [] →
  isDerangement (originalIndicesOf array) (shuffledIndicesOf array) = false.
Proof.
  destruct array as [|x array]; [done|]. intros _.
  assert (H0 : originalIndicesOf (x :: array) !! 0
               = shuffledIndicesOf (x :: array) !! 0).
  { unfold originalIndicesOf, shuffledIndicesOf. simpl.
    by rewrite indexOf_head. }
  unfold isDerangement.
  replace (length (originalIndicesOf (x :: array))) with (S (length array))
    by (unfold originalIndicesOf; by rewrite length_imap).
  cbn [seq forallb].
  by rewrite (bool_decide_eq_true_2 _ H0).
Qed.

Lemma attemptLoop_exhausts n array g :
  array ≠ [] →
  (attemptLoop n array (originalIndicesOf array) g).1 = None.
Proof.
  intros Hne. revert g. induction n as [|n IH]; intros g; simpl; [done|].
  destruct (shuffleArray array g) as [shuffled g'].
  rewrite index_test_rejects by done. apply IH.
Qed.

Lemma generateDerangementWith_shift n array g :
  3 ≤ length array →
  (generateDerangementWith n array g).1 = Ok (cyclicShift array).
Proof.
  intros Hlen.
  destruct array as [|a0 [|a1 [|a2 rest]]]; simpl in Hlen; try lia.
  unfold generateDerangementWith.
  pose proof (attemptLoop_exhausts n (a0 :: a1 :: a2 :: rest) g) as Hex.
  destruct (attemptLoop n _ _ g) as [[shuffled|] g']; simpl in Hex.
  - by discriminate Hex.
  - done.
Qed.

Lemma generateDerangementWith_pair n (a b : T) g :
  generateDerangementWith n [a; b] g = (Ok [b; a], g).
Proof. done. Qed.

Lemma generateDerangementWith_cases n array g :
  (length array < 2 ∧
   generateDerangementWith n array g = (Throw InsufficientParticipants, g)) ∨
  (2 ≤ length array ∧
   (generateDerangementWith n array g).1 = Ok (cyclicShift array)).
Proof.
  destruct array as [|a0 [|a1 [|a2 rest]]].
  - left. split; [simpl; lia|done].
  - left. split; [simpl; lia|done].
  - right. split; [simpl; lia|done].
  - right. split; [simpl; lia|].
    apply generateDerangementWith_shift. simpl. lia.
Qed.
End GeneratorFacts.

(** ** Building and inserting the rows *)

Lemma insertRows_Ok rows coll coll' :
  insertRows rows coll = Ok coll' → coll' = coll ++ rows.
Proof.
  revert coll. induction rows as [|r rows IH]; intros coll; simpl.
  - intros [= <-]. by rewrite app_nil_r.
  - case_decide; [done|]. intros Hrec%IH. by rewrite <- app_assoc in Hrec.
Qed.

Lemma insertRows_succeeds rows coll :
  Forall (λ r, Forall (λ c, ¬ collides r c) coll) rows →
  NoDup (a_receiverNumber <$> rows) →
  NoDup (a_santaUserId <$> rows) →
  NoDup (a_receiverUserId <$> rows) →
  insertRows rows coll = Ok (coll ++ rows).
Proof.
  revert coll. induction rows as [|r rows IH]; intros coll Hcoll Hn Hs Hr.
  - simpl. by rewrite app_nil_r.
  - simpl. inversion_clear Hcoll as [|?? Hr0 Hrest].
    rewrite fmap_cons in Hn, Hs, Hr.
    apply NoDup_cons in Hn as [Hn1 Hn2].
    apply NoDup_cons in Hs as [Hs1 Hs2].
    apply NoDup_cons in Hr as [Hr1 Hr2].
    rewrite decide_False.
    2:{ rewrite Exists_exists. intros (c & Hc & Hcol).
        rewrite Forall_forall in Hr0. by apply (Hr0 c). }
    rewrite (IH (coll ++ [r])); [by rewrite <- app_assoc| |done|done|done].
    rewrite Forall_forall in Hrest |- *. intros r' Hr'.
    apply Forall_app. split; [by apply Hrest|].
    apply Forall_singleton. intros (_ & [Heq|[Heq|Heq]]).
    + apply Hn1. rewrite <- Heq. by apply list_elem_of_fmap_2.
    + apply Hs1. rewrite <- Heq. by apply list_elem_of_fmap_2.
    + apply Hr1. rewrite <- Heq. by apply list_elem_of_fmap_2.
Qed.

(** The documents that pass validation carry consecutive fresh identifiers
    and the fields of the inputs. *)
Lemma toDocuments_rows oid inputs rows :
  validated (toDocuments oid inputs) = Some rows →
  a_id <$> rows = seq oid (length inputs) ∧
  a_eventId <$> rows = in_eventId <$> inputs ∧
  a_santaUserId <$> rows = in_santaUserId <$> inputs ∧
  a_receiverUserId <$> rows = in_receiverUserId <$> inputs ∧
  (Some ∘ a_receiverNumber) <$> rows = in_receiverNumber <$> inputs.
Proof.
  revert oid rows. induction inputs as [|i inputs IH]; intros oid rows; simpl.
  - by intros [= <-].
  - destruct (in_receiverNumber i) as [n|] eqn:Hn; simpl; [|done].
    destruct (validated (toDocuments (S oid) inputs)) as [rows'|] eqn:Hrows;
      simpl; [|done].
    intros [= <-]. destruct (IH _ _ Hrows) as (H1 & H2 & H3 & H4 & H5).
    rewrite !fmap_cons. simpl. by rewrite H1, H2, H3, H4, H5.
Qed.

Lemma toDocuments_validates oid inputs :
  Forall (λ i, is_Some (in_receiverNumber i)) inputs →
  is_Some (validated (toDocuments oid inputs)).
Proof.
  revert oid. induction inputs as [|i inputs IH]; intros oid Hall; simpl.
  - by eexists.
  - inversion_clear Hall as [|?? [n Hn] Hrest]. rewrite Hn. simpl.
    destruct (IH (S oid) Hrest) as [rows' ->]. by eexists.
Qed.

Lemma buildAssignments_inputs eventId index santas receivers nums inputs :
  buildAssignments eventId index santas receivers nums = Ok inputs →
  length inputs = length santas ∧
  Forall (λ i, in_eventId i = eventId) inputs ∧
  in_santaUserId <$> inputs = u_id <$> santas ∧
  (Some ∘ in_receiverUserId) <$> inputs
    = (λ k, u_id <$> receivers !! k) <$> seq index (length santas) ∧
  in_receiverNumber <$> inputs
    = (λ k, nums !! k) <$> seq index (length santas).
Proof.
  revert index inputs.
  induction santas as [|santa santas IH]; intros index inputs; simpl.
  - by intros [= <-].
  - destruct (receivers !! index) as [receiver|] eqn:Hr; [|done].
    destruct (buildAssignments eventId (S index) santas receivers nums)
      as [rest|e] eqn:Hrest; [|done].
    intros [= <-]. destruct (IH _ _ Hrest) as (H1 & H2 & H3 & H4 & H5).
    rewrite !fmap_cons. simpl. rewrite H1, H3, H4, H5.
    repeat split; try done. by constructor.
Qed.

Lemma buildAssignments_succeeds eventId index santas receivers nums :
  index + length santas ≤ length receivers →
  isOk (buildAssignments eventId index santas receivers nums) = true.
Proof.
  revert index. induction santas as [|santa santas IH]; intros index; simpl.
  - done.
  - intros Hlen.
    destruct (lookup_lt_is_Some_2 receivers index ltac:(lia)) as [r ->].
    specialize (IH (S index) ltac:(lia)).
    by destruct (buildAssignments eventId (S index) santas receivers nums).
Qed.

(** Reading a whole list back through its indices. *)
Lemma lookup_all_indices {A} (l k : list A) :
  Some <$> k = (λ i, l !! i) <$> seq 0 (length l) → k = l.
Proof.
  intros Heq. apply (inj (fmap Some)). rewrite Heq.
  apply list_eq. intros i. rewrite !list_lookup_fmap.
  destruct (decide (i < length l)) as [Hi|Hi].
  - rewrite lookup_seq_lt by done. simpl.
    by destruct (lookup_lt_is_Some_2 l i Hi) as [x ->].
  - rewrite lookup_seq_ge by lia. simpl.
    by rewrite lookup_ge_None_2 by lia.
Qed.

(** ** What a run of [assignSecretSanta] does *)

Ltac unfold_service :=
  unfold assignSecretSanta, assignBody, Event_findById, User_find,
    Assignment_deleteMany, Assignment_insertMany, Event_save,
    commitTransaction, storeCall, withRng, liftResult, bind, ret, throw,
    startTransaction, abortTransaction, endSession;
  unfold eventOf, participantsOf, savedEvents, otherRows.

Lemma assignSecretSanta_Ok faults eventId w w' :
  assignSecretSanta faults eventId w = (Ok tt, w') →
  ∃ event receivers g1 shuffledNumbers g2 inputs rows,
    eventOf eventId (db w) = Some event ∧
    2 ≤ length (participantsOf eventId (db w)) ∧
    generateDerangement (participantsOf eventId (db w)) (rng w)
      = (Ok receivers, g1) ∧
    shuffleArray ((λ i, i + 1)
                    <$> seq 0 (length (participantsOf eventId (db w)))) g1
      = (shuffledNumbers, g2) ∧
    buildAssignments eventId 0 (participantsOf eventId (db w)) receivers
                     shuffledNumbers = Ok inputs ∧
    validated (toDocuments (nextOid w) inputs) = Some rows ∧
    w' = mkWorld (mkDb (savedEvents event (db w)) (users (db w))
                       (otherRows eventId (db w) ++ rows))
                 (nextOid w + length inputs) g2.
Proof.
  unfold_service. destruct w as [d oid g]. simpl.
  intros Hrun.
  repeat (case_match; simplify_eq/=).
  match goal with Hins : insertRows _ _ = Ok _ |- _ =>
    apply insertRows_Ok in Hins; subst end.
  eexists _, _, _, _, _, _, _.
  repeat split; try eassumption. lia.
Qed.

(** Every path that ends in an exception leaves the committed store as it
    was: the working copy is published by [commitTransaction] alone, which
    is the last step. *)
Lemma assignSecretSanta_Throw faults eventId w e w' :
  assignSecretSanta faults eventId w = (Throw e, w') → db w' = db w.
Proof.
  unfold_service. destruct w as [d oid g]. simpl.
  intros Hrun. by repeat (case_match; simplify_eq/=).
Qed.

Lemma assignSecretSanta_result faults eventId w :
  ∃ r w', assignSecretSanta faults eventId w = (r, w').
Proof. destruct (assignSecretSanta faults eventId w) as [r w']. eauto. Qed.

(** A rejected store operation makes the run fail, whichever it is. *)
Lemma assignSecretSanta_fault faults eventId w op :
  op ∈ [OpStartSession; OpFindEvent; OpFindUsers; OpDeleteMany;
        OpInsertMany; OpSaveEvent; OpCommit] →
  faults op = true →
  isOk (assignSecretSanta faults eventId w).1 = false.
Proof.
  intros Hop Hf.
  destruct (assignSecretSanta faults eventId w) as [[[]|e] w'] eqn:Hrun;
    [|done].
  exfalso. revert Hrun. unfold_service. destruct w as [d oid g]. simpl.
  intros Hrun. repeat (case_match; simplify_eq/=).
  repeat (apply elem_of_cons in Hop as [->|Hop]; [congruence|]).
  by apply elem_of_nil in Hop.
Qed.

Lemma assignSecretSanta_EventNotFound faults eventId w :
  faults OpStartSession = false → faults OpFindEvent = false →
  eventOf eventId (db w) = None →
  assignSecretSanta faults eventId w = (Throw EventNotFound, w).
Proof.
  intros Hs Hf Hev. unfold_service. destruct w as [d oid g].
  unfold eventOf in Hev. simpl in *. rewrite Hs, Hf. simpl. by rewrite Hev.
Qed.

Lemma assignSecretSanta_InsufficientParticipants faults eventId w :
  faults OpStartSession = false → faults OpFindEvent = false →
  faults OpFindUsers = false →
  is_Some (eventOf eventId (db w)) →
  length (participantsOf eventId (db w)) < 2 →
  assignSecretSanta faults eventId w = (Throw InsufficientParticipants, w).
Proof.
  intros Hs Hf Hu [ev Hev] Hlen. unfold_service. destruct w as [d oid g].
  unfold eventOf, participantsOf in *. simpl in *.
  rewrite Hs, Hf. simpl. rewrite Hev, Hu. simpl. by rewrite decide_True.
Qed.

(** ** The rows of a successful run *)

Lemma filter_all {A} (P : A → Prop) `{∀ x, Decision (P x)} (l : list A) :
  Forall P l → filter P l = l.
Proof.
  induction 1 as [|x l Hx _ IH]; [done|].
  by rewrite filter_cons_True, IH.
Qed.

Lemma filter_none {A} (P : A → Prop) `{∀ x, Decision (P x)} (l : list A) :
  Forall (λ x, ¬ P x) l → filter P l = [].
Proof.
  induction 1 as [|x l Hx _ IH]; [done|].
  by rewrite filter_cons_False.
Qed.

Lemma rowsOf_otherRows_app eventId d rows :
  Forall (λ r, a_eventId r = eventId) rows →
  filter (λ a, a_eventId a = eventId) (otherRows eventId d ++ rows) = rows.
Proof.
  intros Hrows. rewrite filter_app.
  rewrite (filter_none _ (otherRows eventId d)), (filter_all _ rows); [done..|].
  apply Forall_forall. intros a Ha%list_elem_of_filter. tauto.
Qed.

Lemma otherRows_otherRows_app eventId d rows :
  Forall (λ r, a_eventId r = eventId) rows →
  filter (λ a, a_eventId a ≠ eventId) (otherRows eventId d ++ rows)
  = otherRows eventId d.
Proof.
  intros Hrows. rewrite filter_app.
  rewrite (filter_all _ (otherRows eventId d)), (filter_none _ rows).
  - by rewrite app_nil_r.
  - eapply Forall_impl; [done|]. simpl. tauto.
  - apply Forall_forall. intros a Ha%list_elem_of_filter. tauto.
Qed.

(** The receivers chosen by the generator are always the cyclic shift of
    the participants (for two participants the shift is the swap). *)
Lemma generateDerangement_Ok {T} `{EqDecision T} (array : list T) g r g' :
  generateDerangement array g = (Ok r, g') →
  2 ≤ length array ∧ r = cyclicShift array.
Proof.
  intros Hgen. unfold generateDerangement in Hgen.
  destruct (generateDerangementWith_cases 1000 array g) as [[_ Hc]|[Hlen Hc]].
  - congruence.
  - rewrite Hgen in Hc. simpl in Hc. split; [done|congruence].
Qed.

(** The numbers [1 .. n] built by [Array.from]. *)
Lemma numbers_seq n : (λ i, i + 1) <$> seq 0 n = seq 1 n.
Proof.
  rewrite <- (fmap_S_seq 0 n). apply list_fmap_ext. intros; simpl; lia.
Qed.

(** The documents built from the participants [P], their cyclic shift and
    the shuffled numbers [nums]. *)
Lemma built_rows eventId (P : list IUser) nums oid inputs rows :
  length nums = length P →
  buildAssignments eventId 0 P (cyclicShift P) nums = Ok inputs →
  validated (toDocuments oid inputs) = Some rows →
  a_id <$> rows = seq oid (length P) ∧
  Forall (λ r, a_eventId r = eventId) rows ∧
  a_santaUserId <$> rows = u_id <$> P ∧
  a_receiverUserId <$> rows = u_id <$> cyclicShift P ∧
  a_receiverNumber <$> rows = nums.
Proof.
  intros Hnums (Hl & He & Hs & Hr & Hn)%buildAssignments_inputs
         (Hid & Hde & Hds & Hdr & Hdn)%toDocuments_rows.
  repeat split.
  - by rewrite Hid, Hl.
  - apply Forall_forall. intros r Hin.
    apply (list_elem_of_fmap_2 a_eventId) in Hin. rewrite Hde in Hin.
    apply list_elem_of_fmap in Hin as (i & -> & Hi).
    rewrite Forall_forall in He. by apply He.
  - by rewrite Hds.
  - rewrite Hdr. apply lookup_all_indices.
    rewrite <- list_fmap_compose, Hr, length_fmap.
    rewrite (Permutation_length (cyclicShift_Permutation P)).
    apply list_fmap_ext. intros i k _. simpl. by rewrite list_lookup_fmap.
  - apply lookup_all_indices. rewrite <- list_fmap_compose, Hdn, Hn.
    by rewrite Hnums.
Qed.

Lemma built_rows_validate eventId index (P receivers : list IUser) nums inputs :
  index + length P ≤ length nums →
  buildAssignments eventId index P receivers nums = Ok inputs →
  Forall (λ i, is_Some (in_receiverNumber i)) inputs.
Proof.
  intros Hlen (_ & _ & _ & _ & Hn)%buildAssignments_inputs.
  apply Forall_forall. intros i Hi.
  apply (list_elem_of_fmap_2 in_receiverNumber) in Hi. rewrite Hn in Hi.
  apply list_elem_of_fmap in Hi as (k & -> & Hk).
  apply elem_of_seq in Hk. apply lookup_lt_is_Some_2. lia.
Qed.

Lemma assignSecretSanta_effect faults eventId w w' :
  assignSecretSanta faults eventId w = (Ok tt, w') →
  ∃ event g1 rows, RunEffect eventId w w' event g1 rows.
Proof.
  intros (event & receivers & g1 & nums & g2 & inputs & rows & Hev & Hlen &
          Hgen & Hsh & Hbuild & Hdocs & ->)%assignSecretSanta_Ok.
  apply generateDerangement_Ok in Hgen as [_ ->].
  rewrite numbers_seq in Hsh.
  assert (Hnums : nums
    = (shuffleArray (seq 1 (length (participantsOf eventId (db w)))) g1).1)
    by by rewrite Hsh.
  assert (Hnl : length nums = length (participantsOf eventId (db w))).
  { by rewrite Hnums, shuffleArray_length, length_seq. }
  pose proof (buildAssignments_inputs _ _ _ _ _ _ Hbuild) as (Hl & _).
  destruct (built_rows _ _ _ _ _ _ Hnl Hbuild Hdocs)
    as (Hid & Hrows_ev & Hs & Hr & Hn).
  exists event, g1, rows. split; simpl; try done.
  - unfold rowsOf; simpl. by apply rowsOf_otherRows_app.
  - unfold otherRows at 1; simpl. by apply otherRows_otherRows_app.
  - by rewrite Hl.
  - by rewrite Hn.
Qed.

Lemma generateDerangement_Throw {T} `{EqDecision T} (array : list T) g e g' :
  generateDerangement array g = (Throw e, g') →
  length array < 2 ∧ e = InsufficientParticipants.
Proof.
  intros Hgen. unfold generateDerangement in Hgen.
  destruct (generateDerangementWith_cases 1000 array g) as [[Hlen Hc]|[_ Hc]].
  - split; [done|congruence].
  - rewrite Hgen in Hc. done.
Qed.

(** With a working store, an existing event and at least two participants
    with pairwise different identifiers, the run succeeds. *)
Lemma assignSecretSanta_succeeds faults eventId w :
  (∀ op, faults op = false) →
  is_Some (eventOf eventId (db w)) →
  NoDup (u_id <$> participantsOf eventId (db w)) →
  2 ≤ length (participantsOf eventId (db w)) →
  ∃ w', assignSecretSanta faults eventId w = (Ok tt, w').
Proof.
  intros Hf [event Hev] Hnd Hlen.
  destruct (assignSecretSanta faults eventId w) as [[[]|e] w'] eqn:Hrun;
    [by eauto|].
  exfalso. revert Hrun. unfold_service. unfold eventOf, participantsOf in *.
  destruct w as [d oid g]. simpl in *.
  intros Hrun.
  repeat (case_match; simplify_eq/=);
    try match goal with H : faults _ = true |- _ => by rewrite Hf in H end;
    try lia;
    repeat match goal with
    | H : generateDerangement _ _ = (Throw _, _) |- _ =>
        apply generateDerangement_Throw in H as [? _]; lia
    | H : generateDerangement _ _ = (Ok _, _) |- _ =>
        apply generateDerangement_Ok in H as [_ ->]
    | H : shuffleArray ((λ i, i + 1) <$> _) _ = _ |- _ =>
        rewrite numbers_seq in H
    end.
  all: set (P := filter (λ u, u_eventId u = Some eventId) (users d)) in *.
  - (* unique indexes *)
    match goal with H : shuffleArray _ ?g1 = (?nums, _) |- _ =>
      assert (Hnums : nums = (shuffleArray (seq 1 (length P)) g1).1)
        by (by rewrite H) end.
    match goal with
      Hb : buildAssignments _ _ _ _ ?nums = Ok _, Hd : validated _ = Some ?rows,
      Hi : insertRows _ ?coll = Throw _ |- _ =>
        assert (Hnl : length nums = length P)
          by (by rewrite Hnums, shuffleArray_length, length_seq);
        destruct (built_rows _ _ _ _ _ _ Hnl Hb Hd)
          as (Hid & Hrows_ev & Hs & Hr & Hn);
        rewrite (insertRows_succeeds rows coll) in Hi; [done| | | |]
    end.
    + apply Forall_forall. intros row Hr0. apply Forall_forall.
      intros c Hc%list_elem_of_filter [Heq _].
      rewrite Forall_forall in Hrows_ev. rewrite (Hrows_ev row Hr0) in Heq.
      destruct Hc as [Hc _]. by apply Hc.
    + rewrite Hn, Hnums, shuffleArray_Permutation. apply NoDup_seq.
    + by rewrite Hs.
    + by rewrite Hr, cyclicShift_Permutation.
  - (* validation *)
    match goal with H : shuffleArray _ ?g1 = (?nums, _) |- _ =>
      assert (Hnl : length nums = length P)
        by (replace nums with (shuffleArray (seq 1 (length P)) g1).1
              by (by rewrite H);
            by rewrite shuffleArray_length, length_seq) end.
    match goal with
      H : buildAssignments _ _ _ _ ?nums = Ok ?inputs,
      Hm : validated _ = None |- _ =>
        assert (Hle : 0 + length P ≤ length nums) by (simpl; lia);
        pose proof (built_rows_validate _ _ _ _ _ _ Hle H) as Hv;
        destruct (toDocuments_validates oid inputs Hv) as [rows Hrows];
        by rewrite Hm in Hrows
    end.
  - (* building the rows *) 
    match goal with H : buildAssignments _ _ _ _ ?nums = Throw _ |- _ =>
      pose proof (buildAssignments_succeeds eventId 0 P (cyclicShift P) nums)
        as Hb;
      rewrite (Permutation_length (cyclicShift_Permutation P)) in Hb;
      rewrite H in Hb end.
    by specialize (Hb ltac:(lia)).
Qed.

(** ** Consequences for the stored rows *)

Lemma fmap_cyclicShift {A B} (f : A → B) (l : list A) :
  f <$> cyclicShift l = cyclicShift (f <$> l).
Proof.
  destruct l as [|a l]; [done|].
  destruct (snoc_of_nonempty (a :: l)) as (init & x & ->); [done|].
  rewrite fmap_app. simpl. by rewrite !cyclicShift_snoc.
Qed.

Lemma rows_no_self_assignment (ids : list ObjectId) (rows : list IAssignment) :
  NoDup ids → 2 ≤ length ids →
  a_santaUserId <$> rows = ids →
  a_receiverUserId <$> rows = cyclicShift ids →
  Forall (λ r, a_santaUserId r ≠ a_receiverUserId r) rows.
Proof.
  intros Hnd Hlen Hs Hr. apply Forall_forall. intros r Hin.
  apply list_elem_of_lookup in Hin as [i Hi].
  apply (cyclicShift_moves_every_index ids Hnd Hlen i).
  - by rewrite <- Hs, list_lookup_fmap, Hi.
  - by rewrite <- Hr, list_lookup_fmap, Hi.
Qed.

Lemma RunEffect_complete eventId w w' event g1 rows :
  RunEffect eventId w w' event g1 rows →
  NoDup (u_id <$> participantsOf eventId (db w)) →
  length rows = length (participantsOf eventId (db w)) ∧
  a_santaUserId <$> rows ≡ₚ u_id <$> participantsOf eventId (db w) ∧
  a_receiverUserId <$> rows ≡ₚ u_id <$> participantsOf eventId (db w) ∧
  Forall (λ r, a_santaUserId r ≠ a_receiverUserId r) rows.
Proof.
  intros He Hnd.
  pose proof (eff_santas _ _ _ _ _ _ He) as Hs.
  pose proof (eff_receivers _ _ _ _ _ _ He) as Hr.
  pose proof (eff_count _ _ _ _ _ _ He) as Hc.
  repeat split.
  - by rewrite <- (length_fmap a_santaUserId), Hs, length_fmap.
  - by rewrite Hs.
  - by rewrite Hr, cyclicShift_Permutation.
  - rewrite fmap_cyclicShift in Hr.
    eapply rows_no_self_assignment; [done| |done..].
    by rewrite length_fmap.
Qed.

Lemma RunEffect_numbers eventId w w' event g1 rows :
  RunEffect eventId w w' event g1 rows →
  a_receiverNumber <$> rows
    ≡ₚ seq 1 (length (participantsOf eventId (db w))).
Proof.
  intros He. rewrite (eff_numbers _ _ _ _ _ _ He).
  apply shuffleArray_Permutation.
Qed.

(** The run leaves the users, hence the participants of every event,
    untouched. *)
Lemma RunEffect_participants eventId w w' event g1 rows :
  RunEffect eventId w w' event g1 rows →
  ∀ e, participantsOf e (db w') = participantsOf e (db w).
Proof.
  intros He e. unfold participantsOf. by rewrite (eff_users _ _ _ _ _ _ He).
Qed.

Lemma eventOf_id eventId d event :
  eventOf eventId d = Some event → ev_id event = eventId.
Proof.
  intros Hev%head_Some_elem_of. by apply list_elem_of_filter in Hev as [? _].
Qed.

Lemma savedEvents_status eventId event d us rows :
  eventOf eventId d = Some event →
  eventOf eventId (mkDb (savedEvents event d) us rows)
  = Some (setStatus assigned event).
Proof.
  intros Hev. pose proof (eventOf_id _ _ _ Hev) as Hid.
  revert Hev. unfold eventOf, savedEvents. simpl.
  induction (events d) as [|e es IH]; [done|].
  rewrite fmap_cons, filter_cons. case_decide as He.
  - simpl. intros [= ->]. rewrite decide_True by done.
    by rewrite filter_cons_True.
  - intros Hes. rewrite decide_False by congruence.
    rewrite filter_cons_False by done. by apply IH.
Qed.

Lemma RunEffect_status eventId w w' event g1 rows :
  RunEffect eventId w w' event g1 rows →
  ev_status <$> eventOf eventId (db w') = Some assigned.
Proof.
  intros He.
  pose proof (savedEvents_status eventId event (db w) (users (db w'))
                (assignments (db w')) (eff_event _ _ _ _ _ _ He)) as Hst.
  rewrite <- (eff_events _ _ _ _ _ _ He) in Hst.
  replace (mkDb (events (db w')) (users (db w')) (assignments (db w')))
    with (db w') in Hst by by destruct (db w').
  by rewrite Hst.
Qed.

(** ** The read path *)

Lemma Forall2_head_filter {A B} (R : A → B → Prop) (P : A → Prop)
    (Q : B → Prop) `{∀ x, Decision (P x), ∀ y, Decision (Q y)} l k :
  (∀ x y, R x y → P x ↔ Q y) →
  Forall2 R l k →
  option_Forall2 R (head (filter P l)) (head (filter Q k)).
Proof.
  intros HPQ Hlk. pose proof (Forall2_filter R P Q l k HPQ Hlk) as Hf.
  destruct Hf; simpl; by constructor.
Qed.

Lemma populateReceiver_renamed rho d1 d2 ref :
  Inj (=) (=) rho → sameUpToIdentity rho d1 d2 →
  p_wishlist <$> populateReceiver (rho ref) d2
  = p_wishlist <$> populateReceiver ref d1.
Proof.
  intros Hinj [Hus _]. unfold populateReceiver.
  assert (Hh : option_Forall2
                 (λ u1 u2, u_id u2 = rho (u_id u1) ∧
                           u_wishlist u2 = u_wishlist u1)
                 (head (filter (λ u, u_id u = ref) (users d1)))
                 (head (filter (λ u, u_id u = rho ref) (users d2)))).
  { apply Forall2_head_filter; [|done].
    intros x y [-> _]. split; [congruence|apply Hinj]. }
  inversion Hh as [u1 u2 [_ Hw]|]; simpl; [|done]. by rewrite Hw.
Qed.

Lemma getUserAssignment_renamed faults rho eventId userId d1 d2 :
  Inj (=) (=) rho → sameUpToIdentity rho d1 d2 →
  getUserAssignment faults eventId (rho userId) d2
  = getUserAssignment faults eventId userId d1.
Proof.
  intros Hinj Hsame. unfold getUserAssignment.
  destruct (faults OpFindOne); [done|].
  assert (Hh : option_Forall2
                 (λ a1 a2, a_eventId a2 = a_eventId a1 ∧
                           a_santaUserId a2 = rho (a_santaUserId a1) ∧
                           a_receiverUserId a2 = rho (a_receiverUserId a1) ∧
                           a_receiverNumber a2 = a_receiverNumber a1)
                 (head (filter (λ a, a_eventId a = eventId ∧
                                     a_santaUserId a = userId)
                               (assignments d1)))
                 (head (filter (λ a, a_eventId a = eventId ∧
                                     a_santaUserId a = rho userId)
                               (assignments d2)))).
  { apply Forall2_head_filter; [|apply Hsame].
    intros x y (-> & -> & _). split.
    - by intros [? ->].
    - by intros [? ?%Hinj]. }
  inversion Hh as [a1 a2 (_ & _ & Hr & Hn)|]; [|done].
  destruct (faults OpPopulate); [done|].
  pose proof (populateReceiver_renamed rho d1 d2 (a_receiverUserId a1)
                Hinj Hsame) as Hp.
  rewrite Hr, Hn.
  destruct (populateReceiver (rho (a_receiverUserId a1)) d2) as [p2|],
    (populateReceiver (a_receiverUserId a1) d1) as [p1|];
    simpl in Hp; congruence.
Qed.

Lemma getUserAssignment_Some faults eventId userId d r :
  getUserAssignment faults eventId userId d = Ok (Some r) →
  ∃ a receiver,
    a ∈ assignments d ∧ a_eventId a = eventId ∧ a_santaUserId a = userId ∧
    receiver ∈ users d ∧ u_id receiver = a_receiverUserId a ∧
    r = mkUserAssignment (a_receiverNumber a) (u_wishlist receiver).
Proof.
  unfold getUserAssignment, populateReceiver.
  destruct (faults OpFindOne); [done|].
  destruct (head (filter _ (assignments d))) as [a|] eqn:Ha; [|done].
  destruct (faults OpPopulate); [done|].
  destruct (head (filter _ (users d))) as [u|] eqn:Hu; simpl; [|done].
  intros [= <-]. exists a, u.
  apply head_Some_elem_of, list_elem_of_filter in Ha as [[? ?] ?].
  apply head_Some_elem_of, list_elem_of_filter in Hu as [? ?].
  done.
Qed.

Lemma getUserAssignment_found faults eventId userId d a receiver :
  faults OpFindOne = false → faults OpPopulate = false →
  head (filter (λ a, a_eventId a = eventId ∧ a_santaUserId a = userId)
               (assignments d)) = Some a →
  head (filter (λ u, u_id u = a_receiverUserId a) (users d)) = Some receiver →
  getUserAssignment faults eventId userId d
  = Ok (Some (mkUserAssignment (a_receiverNumber a) (u_wishlist receiver))).
Proof.
  intros Hf1 Hf2 Ha Hu. unfold getUserAssignment, populateReceiver.
  by rewrite Hf1, Ha, Hf2, Hu.
Qed.

(* ===================================================================== *)
(** * Part 5. The claims                                                  *)
(* ===================================================================== *)

(** C1. For an event with N >= 2 participants with pairwise different
    identifiers, a successful run of [assignSecretSanta] leaves exactly N
    assignment rows for the event; the santa references are the
    participants, each once; the receiver references are the participants,
    each once; and no row has its santa as receiver. *)
Theorem assignment_complete_without_fixed_point faults eventId w w' :
  NoDup (u_id <$> participantsOf eventId (db w)) →
  2 ≤ length (participantsOf eventId (db w)) →
  assignSecretSanta faults eventId w = (Ok tt, w') →
  length (rowsOf eventId (db w')) = length (participantsOf eventId (db w)) ∧
  a_santaUserId <$> rowsOf eventId (db w')
    ≡ₚ u_id <$> participantsOf eventId (db w) ∧
  a_receiverUserId <$> rowsOf eventId (db w')
    ≡ₚ u_id <$> participantsOf eventId (db w) ∧
  Forall (λ r, a_santaUserId r ≠ a_receiverUserId r) (rowsOf eventId (db w')).
Proof.
  intros Hnd _ (event & g1 & rows & He)%assignSecretSanta_effect.
  rewrite (eff_rowsOf _ _ _ _ _ _ He).
  by eapply RunEffect_complete.
Qed.

Lemma assignment_complete_without_fixed_point_witness :
  let w' := (assignSecretSanta noFaults 1 Scenario.world).2 in
  (NoDup (u_id <$> participantsOf 1 (db Scenario.world)) ∧
   2 ≤ length (participantsOf 1 (db Scenario.world)) ∧
   assignSecretSanta noFaults 1 Scenario.world = (Ok tt, w')) ∧
  length (rowsOf 1 (db w')) = length (participantsOf 1 (db Scenario.world)) ∧
  a_santaUserId <$> rowsOf 1 (db w')
    ≡ₚ u_id <$> participantsOf 1 (db Scenario.world) ∧
  a_receiverUserId <$> rowsOf 1 (db w')
    ≡ₚ u_id <$> participantsOf 1 (db Scenario.world) ∧
  Forall (λ r, a_santaUserId r ≠ a_receiverUserId r) (rowsOf 1 (db w')).
Proof.
  assert (H1 : NoDup (u_id <$> participantsOf 1 (db Scenario.world))).
  { apply (bool_decide_unpack _). vm_compute. exact I. }
  assert (H2 : 2 ≤ length (participantsOf 1 (db Scenario.world))).
  { vm_compute. lia. }
  assert (H3 : assignSecretSanta noFaults 1 Scenario.world
               = (Ok tt, (assignSecretSanta noFaults 1 Scenario.world).2)).
  { vm_compute. reflexivity. }
  split; [exact (conj H1 (conj H2 H3))|].
  exact (assignment_complete_without_fixed_point noFaults 1 Scenario.world
           _ H1 H2 H3).
Defined.

(** C2. The generator is meant to return the first sampled shuffle that is
    a derangement.  On [["A"; "B"; "C"]] with the draws [0, 0] the first
    shuffle is [["B"; "C"; "A"]], a derangement of the input, but the test
    of that attempt answers [false] and the call returns the cyclic shift
    [["C"; "A"; "B"]] instead. *)
Theorem first_derangement_shuffle_is_not_returned :
  let array := ["A"; "B"; "C"] in
  let g := tapeOf [0; 0] in
  (shuffleArray array g).1 = ["B"; "C"; "A"] ∧
  Derangement array (shuffleArray array g).1 ∧
  isDerangement (originalIndicesOf array) (shuffledIndicesOf array) = false ∧
  (attemptLoop 1 array (originalIndicesOf array) g).1 = None ∧
  (generateDerangement array g).1 = Ok ["C"; "A"; "B"] ∧
  (generateDerangement array g).1 ≠ Ok (shuffleArray array g).1.
Proof.
  intros array g.
  assert (Hsh : (shuffleArray array g).1 = ["B"; "C"; "A"]) by reflexivity.
  assert (Hmoved : ∀ (i : nat) (x y : string),
             array !! i = Some x → ["B"; "C"; "A"] !! i = Some y → x ≠ y).
  { subst array. clear. intros [|[|[|i]]] x y [= <-] [= <-]; done. }
  assert (Hgen : (generateDerangement array g).1 = Ok ["C"; "A"; "B"]).
  { unfold generateDerangement.
    by rewrite generateDerangementWith_shift by (simpl; lia). }
  split; [exact Hsh|]. split; [split|].
  - apply shuffleArray_Permutation.
  - rewrite Hsh. exact Hmoved.
  - split; [by apply index_test_rejects|].
    split; [by apply attemptLoop_exhausts|].
    split; [exact Hgen|].
    rewrite Hgen, Hsh. intros [=].
Qed.

(** C3. For an input of three or more elements (distinct or not) and any
    two random sources, [generateDerangement] returns the same result: the
    input with its last element moved to the front.  The test of every
    attempt compares the positions of the input's elements in the input
    with [0, 1, ...], so it rejects every sampled shuffle. *)
Theorem generateDerangement_ignores_the_random_source
    {T} `{EqDecision T} (array : list T) (g1 g2 : Rng) :
  3 ≤ length array →
  (generateDerangement array g1).1 = (generateDerangement array g2).1 ∧
  (∃ init x, array = init ++ [x] ∧
             (generateDerangement array g1).1 = Ok (x :: init)) ∧
  isDerangement (originalIndicesOf array) (shuffledIndicesOf array) = false ∧
  (∀ n g, (attemptLoop n array (originalIndicesOf array) g).1 = None).
Proof.
  intros Hlen.
  assert (Hne : array ≠ []) by (intros ->; simpl in Hlen; lia).
  unfold generateDerangement.
  rewrite !generateDerangementWith_shift by exact Hlen.
  split; [reflexivity|]. split; [|split].
  - destruct (snoc_of_nonempty array Hne) as (init & x & ->).
    exists init, x. by rewrite cyclicShift_snoc.
  - by apply index_test_rejects.
  - intros n g. by apply attemptLoop_exhausts.
Qed.

Lemma generateDerangement_ignores_the_random_source_witness :
  3 ≤ length [1; 2; 3; 4] ∧
  (generateDerangement [1; 2; 3; 4] (tapeOf [0; 1; 2])).1
  = (generateDerangement [1; 2; 3; 4] (tapeOf [7; 7; 7; 7])).1 ∧
  (∃ init x, [1; 2; 3; 4] = init ++ [x] ∧
             (generateDerangement [1; 2; 3; 4] (tapeOf [0; 1; 2])).1
             = Ok (x :: init)) ∧
  isDerangement (originalIndicesOf [1; 2; 3; 4]) (shuffledIndicesOf [1; 2; 3; 4])
  = false ∧
  (∀ n g, (attemptLoop n [1; 2; 3; 4] (originalIndicesOf [1; 2; 3; 4]) g).1
          = None).
Proof.
  assert (H : 3 ≤ length [1; 2; 3; 4]) by (simpl; lia).
  split; [exact H|].
  exact (generateDerangement_ignores_the_random_source
           [1; 2; 3; 4] (tapeOf [0; 1; 2]) (tapeOf [7; 7; 7; 7]) H).
Defined.

(** C8. On two elements [[a; b]] the generator returns [[b; a]] without
    consulting the random source; hence for an event whose participants
    are [[A; B]] every successful run stores exactly the rows "A gives to
    B" and "B gives to A". *)
Theorem two_participants_are_swapped :
  (∀ (T : Type) (Heq : EqDecision T) (a b : T) (g : Rng),
     generateDerangement [a; b] g = (Ok [b; a], g)) ∧
  (∀ faults eventId w w' A B,
     participantsOf eventId (db w) = [A; B] →
     assignSecretSanta faults eventId w = (Ok tt, w') →
     (λ r, (a_santaUserId r, a_receiverUserId r)) <$> rowsOf eventId (db w')
     = [(u_id A, u_id B); (u_id B, u_id A)]).
Proof.
  split; [intros; reflexivity|].
  intros faults eventId w w' A B HP
         (event & g1 & rows & He)%assignSecretSanta_effect.
  rewrite (eff_rowsOf _ _ _ _ _ _ He).
  pose proof (eff_santas _ _ _ _ _ _ He) as Hs.
  pose proof (eff_receivers _ _ _ _ _ _ He) as Hr.
  rewrite HP in Hs, Hr. simpl in Hs, Hr.
  destruct rows as [|r1 [|r2 [|r3 rows]]]; try discriminate Hs.
  injection Hs as Hs1 Hs2. injection Hr as Hr1 Hr2.
  simpl. by rewrite Hs1, Hs2, Hr1, Hr2.
Qed.

Lemma two_participants_are_swapped_witness :
  let w' := (assignSecretSanta noFaults 2 Scenario.world).2 in
  generateDerangement ["A"; "B"] (tapeOf [5]) = (Ok ["B"; "A"], tapeOf [5]) ∧
  participantsOf 2 (db Scenario.world) = [Scenario.user1; Scenario.user2] ∧
  assignSecretSanta noFaults 2 Scenario.world = (Ok tt, w') ∧
  (λ r, (a_santaUserId r, a_receiverUserId r)) <$> rowsOf 2 (db w')
  = [(u_id Scenario.user1, u_id Scenario.user2);
     (u_id Scenario.user2, u_id Scenario.user1)].
Proof.
  assert (H1 : participantsOf 2 (db Scenario.world)
               = [Scenario.user1; Scenario.user2]) by (vm_compute; reflexivity).
  assert (H2 : assignSecretSanta noFaults 2 Scenario.world
               = (Ok tt, (assignSecretSanta noFaults 2 Scenario.world).2))
    by (vm_compute; reflexivity).
  split; [exact (proj1 two_participants_are_swapped _ _ "A" "B" (tapeOf [5]))|].
  split; [exact H1|]. split; [exact H2|].
  exact (proj2 two_participants_are_swapped noFaults 2 Scenario.world _
           Scenario.user1 Scenario.user2 H1 H2).
Defined.

(** C4. A run either applies all its changes or none.  If it ends in an
    exception, whatever the cause, the committed store (the event's status
    and every assignment row) is as before the call.  If it succeeds, the
    old rows of the event are gone, the new rows are present and the
    event's status is [assigned].  A missing event, fewer than two
    participants and a rejected store operation each make the run fail. *)
Theorem assignment_is_all_or_nothing faults eventId w :
  (∀ e w', assignSecretSanta faults eventId w = (Throw e, w') →
           db w' = db w) ∧
  (∀ w', assignSecretSanta faults eventId w = (Ok tt, w') →
     ∃ event rows,
       eventOf eventId (db w) = Some event ∧
       length rows = length (participantsOf eventId (db w)) ∧
       Forall (λ r, a_eventId r = eventId) rows ∧
       db w' = mkDb (savedEvents event (db w)) (users (db w))
                    (otherRows eventId (db w) ++ rows) ∧
       rowsOf eventId (db w') = rows ∧
       ev_status <$> eventOf eventId (db w') = Some assigned) ∧
  (eventOf eventId (db w) = None →
   isOk (assignSecretSanta faults eventId w).1 = false) ∧
  (length (participantsOf eventId (db w)) < 2 →
   isOk (assignSecretSanta faults eventId w).1 = false) ∧
  (∀ op, op ∈ [OpStartSession; OpFindEvent; OpFindUsers; OpDeleteMany;
               OpInsertMany; OpSaveEvent; OpCommit] →
         faults op = true →
         isOk (assignSecretSanta faults eventId w).1 = false).
Proof.
  split; [|split; [|split; [|split]]].
  - intros e w'. apply assignSecretSanta_Throw.
  - intros w' (event & g1 & rows & He)%assignSecretSanta_effect.
    exists event, rows.
    split; [apply (eff_event _ _ _ _ _ _ He)|].
    split.
    { rewrite <- (length_fmap a_santaUserId), (eff_santas _ _ _ _ _ _ He).
      by rewrite length_fmap. }
    split; [apply (eff_eventId _ _ _ _ _ _ He)|].
    split.
    { rewrite <- (eff_events _ _ _ _ _ _ He), <- (eff_users _ _ _ _ _ _ He),
        <- (eff_assignments _ _ _ _ _ _ He). by destruct (db w'). }
    split; [apply (eff_rowsOf _ _ _ _ _ _ He)|].
    by eapply RunEffect_status.
  - intros Hnone.
    destruct (assignSecretSanta faults eventId w) as [[[]|e] w'] eqn:Hrun;
      [|done].
    apply assignSecretSanta_Ok in Hrun as (event & ? & ? & ? & ? & ? & ? &
                                           Hev & _).
    congruence.
  - intros Hlt.
    destruct (assignSecretSanta faults eventId w) as [[[]|e] w'] eqn:Hrun;
      [|done].
    apply assignSecretSanta_Ok in Hrun as (event & ? & ? & ? & ? & ? & ? &
                                           _ & Hlen & _).
    lia.
  - intros op. apply assignSecretSanta_fault.
Qed.

Lemma assignment_is_all_or_nothing_witness :
  let w1 := (assignSecretSanta noFaults 2 Scenario.world).2 in
  assignSecretSanta Scenario.insertFails 2 w1
  = (Throw (MongoError OpInsertMany),
     (assignSecretSanta Scenario.insertFails 2 w1).2) ∧
  db (assignSecretSanta Scenario.insertFails 2 w1).2 = db w1.
Proof.
  assert (H : assignSecretSanta Scenario.insertFails 2
                (assignSecretSanta noFaults 2 Scenario.world).2
              = (Throw (MongoError OpInsertMany),
                 (assignSecretSanta Scenario.insertFails 2
                    (assignSecretSanta noFaults 2 Scenario.world).2).2))
    by (vm_compute; reflexivity).
  split; [exact H|].
  exact (proj1 (assignment_is_all_or_nothing Scenario.insertFails 2
                  (assignSecretSanta noFaults 2 Scenario.world).2) _ _ H).
Defined.

(** C9. For an existing event with fewer than two participants (and a
    store that answers the two reads) the run fails with "Need at least 2
    participants for Secret Santa" and changes nothing; the generator
    raises the same error on fewer than two elements. *)
Theorem too_few_participants_are_rejected faults eventId w :
  faults OpStartSession = false →
  faults OpFindEvent = false →
  faults OpFindUsers = false →
  is_Some (eventOf eventId (db w)) →
  length (participantsOf eventId (db w)) < 2 →
  assignSecretSanta faults eventId w = (Throw InsufficientParticipants, w) ∧
  rowsOf eventId (db (assignSecretSanta faults eventId w).2)
  = rowsOf eventId (db w) ∧
  (∀ (T : Type) (Heq : EqDecision T) (array : list T) (g : Rng),
     length array < 2 →
     generateDerangement array g = (Throw InsufficientParticipants, g)).
Proof.
  intros Hs Hf Hu Hev Hlen.
  pose proof (assignSecretSanta_InsufficientParticipants
                faults eventId w Hs Hf Hu Hev Hlen) as Hrun.
  split; [exact Hrun|]. split; [by rewrite Hrun|].
  intros T Heq array g Hlt.
  destruct array as [|a0 [|a1 array]]; [reflexivity..|]. simpl in Hlt. lia.
Qed.

Lemma too_few_participants_are_rejected_witness :
  (is_Some (eventOf 3 (db Scenario.world)) ∧
   length (participantsOf 3 (db Scenario.world)) < 2) ∧
  assignSecretSanta noFaults 3 Scenario.world
  = (Throw InsufficientParticipants, Scenario.world) ∧
  rowsOf 3 (db (assignSecretSanta noFaults 3 Scenario.world).2)
  = rowsOf 3 (db Scenario.world) ∧
  (∀ (T : Type) (Heq : EqDecision T) (array : list T) (g : Rng),
     length array < 2 →
     generateDerangement array g = (Throw InsufficientParticipants, g)).
Proof.
  assert (H1 : is_Some (eventOf 3 (db Scenario.world))).
  { exists (mkEvent 3 "Tiny Event" 25 0 closed). vm_compute. reflexivity. }
  assert (H2 : length (participantsOf 3 (db Scenario.world)) < 2).
  { vm_compute. lia. }
  split; [exact (conj H1 H2)|].
  exact (too_few_participants_are_rejected noFaults 3 Scenario.world
           eq_refl eq_refl eq_refl H1 H2).
Defined.

(** C5. After a successful run on an event with N participants (N >= 2 on
    every successful run) the receiver numbers stored for the event are
    exactly 1, ..., N, each once: no duplicate and no gap.  In general the
    shuffle of [1 .. n] is a rearrangement of [1 .. n]. *)
Theorem receiver_numbers_are_one_to_N faults eventId w w' :
  assignSecretSanta faults eventId w = (Ok tt, w') →
  2 ≤ length (participantsOf eventId (db w)) ∧
  a_receiverNumber <$> rowsOf eventId (db w')
    ≡ₚ seq 1 (length (participantsOf eventId (db w))) ∧
  NoDup (a_receiverNumber <$> rowsOf eventId (db w')) ∧
  (∀ k, k ∈ a_receiverNumber <$> rowsOf eventId (db w') ↔
        1 ≤ k ≤ length (participantsOf eventId (db w))) ∧
  (∀ n g, (shuffleArray (seq 1 n) g).1 ≡ₚ seq 1 n).
Proof.
  intros (event & g1 & rows & He)%assignSecretSanta_effect.
  rewrite (eff_rowsOf _ _ _ _ _ _ He).
  pose proof (RunEffect_numbers _ _ _ _ _ _ He) as Hperm.
  split; [apply (eff_count _ _ _ _ _ _ He)|].
  split; [exact Hperm|]. split; [|split].
  - rewrite Hperm. apply NoDup_seq.
  - intros k. rewrite Hperm, elem_of_seq. lia.
  - intros n g. apply shuffleArray_Permutation.
Qed.

Lemma receiver_numbers_are_one_to_N_witness :
  let w' := (assignSecretSanta noFaults 1 Scenario.world).2 in
  assignSecretSanta noFaults 1 Scenario.world = (Ok tt, w') ∧
  2 ≤ length (participantsOf 1 (db Scenario.world)) ∧
  a_receiverNumber <$> rowsOf 1 (db w')
    ≡ₚ seq 1 (length (participantsOf 1 (db Scenario.world))) ∧
  NoDup (a_receiverNumber <$> rowsOf 1 (db w')) ∧
  (∀ k, k ∈ a_receiverNumber <$> rowsOf 1 (db w') ↔
        1 ≤ k ≤ length (participantsOf 1 (db Scenario.world))) ∧
  (∀ n g, (shuffleArray (seq 1 n) g).1 ≡ₚ seq 1 n).
Proof.
  assert (H : assignSecretSanta noFaults 1 Scenario.world
              = (Ok tt, (assignSecretSanta noFaults 1 Scenario.world).2))
    by (vm_compute; reflexivity).
  split; [exact H|].
  exact (receiver_numbers_are_one_to_N noFaults 1 Scenario.world _ H).
Defined.

(** C6. Two successful runs in a row on the same event, whose participants
    have pairwise different identifiers: the participants are the same for
    both runs; after the second run the rows of the event are complete,
    without self-assignment and numbered 1, ..., N; and no row written by
    the first run is left in the collection. *)
Theorem rerun_replaces_the_rows faults1 faults2 eventId w w1 w2 :
  NoDup (u_id <$> participantsOf eventId (db w)) →
  assignSecretSanta faults1 eventId w = (Ok tt, w1) →
  assignSecretSanta faults2 eventId w1 = (Ok tt, w2) →
  participantsOf eventId (db w1) = participantsOf eventId (db w) ∧
  (length (rowsOf eventId (db w2)) = length (participantsOf eventId (db w)) ∧
   a_santaUserId <$> rowsOf eventId (db w2)
     ≡ₚ u_id <$> participantsOf eventId (db w) ∧
   a_receiverUserId <$> rowsOf eventId (db w2)
     ≡ₚ u_id <$> participantsOf eventId (db w) ∧
   Forall (λ r, a_santaUserId r ≠ a_receiverUserId r)
          (rowsOf eventId (db w2))) ∧
  a_receiverNumber <$> rowsOf eventId (db w2)
    ≡ₚ seq 1 (length (participantsOf eventId (db w))) ∧
  (∀ r, r ∈ rowsOf eventId (db w1) → r ∉ assignments (db w2)) ∧
  (∀ r1 r2, r1 ∈ rowsOf eventId (db w1) → r2 ∈ rowsOf eventId (db w2) →
            a_id r1 ≠ a_id r2).
Proof.
  intros Hnd (event1 & g1 & rows1 & He1)%assignSecretSanta_effect
             (event2 & g2 & rows2 & He2)%assignSecretSanta_effect.
  pose proof (RunEffect_participants _ _ _ _ _ _ He1 eventId) as HP.
  rewrite (eff_rowsOf _ _ _ _ _ _ He1), (eff_rowsOf _ _ _ _ _ _ He2).
  assert (Hids : ∀ r1 r2, r1 ∈ rows1 → r2 ∈ rows2 → a_id r1 ≠ a_id r2).
  { intros r1 r2 H1%(list_elem_of_fmap_2 a_id) H2%(list_elem_of_fmap_2 a_id).
    rewrite (eff_ids _ _ _ _ _ _ He1) in H1.
    rewrite (eff_ids _ _ _ _ _ _ He2), (eff_nextOid _ _ _ _ _ _ He1) in H2.
    apply elem_of_seq in H1. apply elem_of_seq in H2. lia. }
  split; [exact HP|]. split; [|split; [|split]].
  - rewrite <- HP. apply (RunEffect_complete _ _ _ _ _ _ He2). by rewrite HP.
  - rewrite <- HP. apply (RunEffect_numbers _ _ _ _ _ _ He2).
  - intros r Hr1. rewrite (eff_assignments _ _ _ _ _ _ He2).
    rewrite elem_of_app. intros [Hin|Hin].
    + apply list_elem_of_filter in Hin as [Hne _]. apply Hne.
      pose proof (eff_eventId _ _ _ _ _ _ He1) as Hev.
      rewrite Forall_forall in Hev. by apply Hev.
    + by apply (Hids r r Hr1 Hin).
  - exact Hids.
Qed.

Lemma rerun_replaces_the_rows_witness :
  let w1 := (assignSecretSanta noFaults 1 Scenario.world).2 in
  let w2 := (assignSecretSanta noFaults 1 w1).2 in
  (NoDup (u_id <$> participantsOf 1 (db Scenario.world)) ∧
   assignSecretSanta noFaults 1 Scenario.world = (Ok tt, w1) ∧
   assignSecretSanta noFaults 1 w1 = (Ok tt, w2)) ∧
  participantsOf 1 (db w1) = participantsOf 1 (db Scenario.world) ∧
  (length (rowsOf 1 (db w2)) = length (participantsOf 1 (db Scenario.world)) ∧
   a_santaUserId <$> rowsOf 1 (db w2)
     ≡ₚ u_id <$> participantsOf 1 (db Scenario.world) ∧
   a_receiverUserId <$> rowsOf 1 (db w2)
     ≡ₚ u_id <$> participantsOf 1 (db Scenario.world) ∧
   Forall (λ r, a_santaUserId r ≠ a_receiverUserId r) (rowsOf 1 (db w2))) ∧
  a_receiverNumber <$> rowsOf 1 (db w2)
    ≡ₚ seq 1 (length (participantsOf 1 (db Scenario.world))) ∧
  (∀ r, r ∈ rowsOf 1 (db w1) → r ∉ assignments (db w2)) ∧
  (∀ r1 r2, r1 ∈ rowsOf 1 (db w1) → r2 ∈ rowsOf 1 (db w2) →
            a_id r1 ≠ a_id r2).
Proof.
  assert (H1 : NoDup (u_id <$> participantsOf 1 (db Scenario.world))).
  { apply (bool_decide_unpack _). vm_compute. exact I. }
  assert (H2 : assignSecretSanta noFaults 1 Scenario.world
               = (Ok tt, (assignSecretSanta noFaults 1 Scenario.world).2))
    by (vm_compute; reflexivity).
  assert (H3 : assignSecretSanta noFaults 1
                 (assignSecretSanta noFaults 1 Scenario.world).2
               = (Ok tt, (assignSecretSanta noFaults 1
                            (assignSecretSanta noFaults 1 Scenario.world).2).2))
    by (vm_compute; reflexivity).
  split; [exact (conj H1 (conj H2 H3))|].
  exact (rerun_replaces_the_rows noFaults noFaults 1 Scenario.world _ _
           H1 H2 H3).
Defined.

(** C7. [getUserAssignment] returns nothing but the receiver number of the
    participant's row and the wishlist of the receiver that the row names.
    Its result is the same on any two stores that differ only in the names
    and e-mail addresses of the users and in a consistent, one-to-one
    renaming of the user identifiers. *)
Theorem getUserAssignment_masks_the_receiver faults eventId userId d :
  (∀ r, getUserAssignment faults eventId userId d = Ok (Some r) →
        ∃ a receiver,
          a ∈ assignments d ∧ a_eventId a = eventId ∧
          a_santaUserId a = userId ∧
          receiver ∈ users d ∧ u_id receiver = a_receiverUserId a ∧
          r = mkUserAssignment (a_receiverNumber a) (u_wishlist receiver)) ∧
  (∀ a receiver,
     faults OpFindOne = false → faults OpPopulate = false →
     head (filter (λ a, a_eventId a = eventId ∧ a_santaUserId a = userId)
                  (assignments d)) = Some a →
     head (filter (λ u, u_id u = a_receiverUserId a) (users d))
     = Some receiver →
     getUserAssignment faults eventId userId d
     = Ok (Some (mkUserAssignment (a_receiverNumber a)
                                  (u_wishlist receiver)))) ∧
  (∀ rho d',
     Inj (=) (=) rho → sameUpToIdentity rho d d' →
     getUserAssignment faults eventId (rho userId) d'
     = getUserAssignment faults eventId userId d).
Proof.
  split; [|split].
  - intros r. apply getUserAssignment_Some.
  - intros a receiver. apply getUserAssignment_found.
  - intros rho d'. apply getUserAssignment_renamed.
Qed.

Lemma getUserAssignment_masks_the_receiver_witness :
  (Inj (=) (=) (λ i : ObjectId, i + 100) ∧
   sameUpToIdentity (λ i, i + 100) Scenario.assignedStore Scenario.masked) ∧
  getUserAssignment noFaults 2 (21 + 100) Scenario.masked
  = getUserAssignment noFaults 2 21 Scenario.assignedStore ∧
  getUserAssignment noFaults 2 21 Scenario.assignedStore
  = Ok (Some (mkUserAssignment 1 (mkWishlist "I want games" ""))).
Proof.
  assert (H1 : Inj (=) (=) (λ i : ObjectId, i + 100)).
  { intros x y Hxy. simpl in Hxy. lia. }
  assert (H2 : sameUpToIdentity (λ i, i + 100)
                 Scenario.assignedStore Scenario.masked).
  { split; vm_compute; repeat constructor. }
  split; [exact (conj H1 H2)|]. split.
  - exact (proj2 (proj2 (getUserAssignment_masks_the_receiver
                           noFaults 2 21 Scenario.assignedStore)) _ _ H1 H2).
  - vm_compute. reflexivity.
Defined.

(** C10. Moving the last element of a duplicate-free sequence of length
    >= 2 to the front gives a derangement of it.  On every input of length
    >= 2 the generator returns a result, which is a derangement when the
    input is duplicate-free; its only exception is the one for fewer than
    two elements. *)
Theorem cyclic_shift_derangement_and_generator_total :
  (∀ (T : Type) (array : list T),
     NoDup array → 2 ≤ length array →
     Derangement array (cyclicShift array)) ∧
  (∀ (T : Type) (Heq : EqDecision T) (array : list T) (g : Rng),
     2 ≤ length array →
     ∃ r g', generateDerangement array g = (Ok r, g')) ∧
  (∀ (T : Type) (Heq : EqDecision T) (array : list T) (g g' : Rng) r,
     NoDup array → generateDerangement array g = (Ok r, g') →
     Derangement array r) ∧
  (∀ (T : Type) (Heq : EqDecision T) (array : list T) (g g' : Rng) e,
     generateDerangement array g = (Throw e, g') →
     length array < 2 ∧ e = InsufficientParticipants).
Proof.
  split; [|split; [|split]].
  - intros T array. apply cyclicShift_Derangement.
  - intros T Heq array g Hlen.
    destruct (generateDerangement array g) as [[r|e] g'] eqn:Hgen; [by eauto|].
    apply generateDerangement_Throw in Hgen as [Hlt _]. lia.
  - intros T Heq array g g' r Hnd [Hlen ->]%generateDerangement_Ok.
    by apply cyclicShift_Derangement.
  - intros T Heq array g g' e. apply generateDerangement_Throw.
Qed.

Lemma cyclic_shift_derangement_and_generator_total_witness :
  (NoDup [1; 2; 3; 4] ∧ 2 ≤ length [1; 2; 3; 4]) ∧
  Derangement [1; 2; 3; 4] (cyclicShift [1; 2; 3; 4]) ∧
  ∃ r g', generateDerangement [1; 2; 3; 4] (tapeOf [2; 0; 1]) = (Ok r, g').
Proof.
  assert (H1 : NoDup [1; 2; 3; 4]).
  { apply (bool_decide_unpack _). vm_compute. exact I. }
  assert (H2 : 2 ≤ length [1; 2; 3; 4]) by (simpl; lia).
  split; [exact (conj H1 H2)|]. split.
  - exact (proj1 cyclic_shift_derangement_and_generator_total _ _ H1 H2).
  - exact (proj1 (proj2 cyclic_shift_derangement_and_generator_total)
             _ _ [1; 2; 3; 4] (tapeOf [2; 0; 1]) H2).
Defined.

(* ===================================================================== *)
(** * Part 6. Further properties of the service and its callers           *)
(* ===================================================================== *)

(** ** The random source is consumed call by call *)

Lemma shuffleLoop_tape {T} i (a : list T) g :
  draws (shuffleLoop i a g).2 = draws g ∧
  pos (shuffleLoop i a g).2 = pos g + i.
Proof.
  revert a g. induction i as [|i IH]; intros a g.
  - simpl. split; [done|lia].
  - cbn [shuffleLoop]. unfold randomIndex.
    destruct (IH (swap (S i) (draws g (pos g) `mod` (S i + 1)) a)
                 (mkRng (draws g) (S (pos g)))) as [Hd Hp].
    rewrite Hd, Hp. simpl. split; [done|lia].
Qed.

Lemma attemptLoop_tape {T} `{EqDecision T} n (array : list T) g :
  array ≠ [] →
  draws (attemptLoop n array (originalIndicesOf array) g).2 = draws g ∧
  pos (attemptLoop n array (originalIndicesOf array) g).2
  = pos g + n * (length array - 1).
Proof.
  intros Hne. revert g. induction n as [|n IH]; intros g.
  - simpl. split; [done|lia].
  - cbn [attemptLoop].
    pose proof (shuffleLoop_tape (length array - 1) array g) as [Hd Hp].
    unfold shuffleArray.
    destruct (shuffleLoop (length array - 1) array g) as [shuffled g'].
    simpl in Hd, Hp.
    rewrite index_test_rejects by done.
    destruct (IH g') as [Hd' Hp']. rewrite Hd', Hp', Hd, Hp. split; [done|lia].
Qed.

(** X1. [shuffleArray] calls [Math.random] exactly [length - 1] times (not
    at all on an empty or one-element array).  [generateDerangement] does
    not call it on two elements, and on three or more elements it always
    runs all 1000 attempts: exactly [1000 * (length - 1)] calls. *)
Theorem random_calls_are_counted {T} `{EqDecision T} (array : list T) g :
  (draws (shuffleArray array g).2 = draws g ∧
   pos (shuffleArray array g).2 = pos g + (length array - 1)) ∧
  (length array = 2 → (generateDerangement array g).2 = g) ∧
  (3 ≤ length array →
   draws (generateDerangement array g).2 = draws g ∧
   pos (generateDerangement array g).2
   = pos g + 1000 * (length array - 1)).
Proof.
  split; [apply shuffleLoop_tape|]. split.
  - intros Hlen. by destruct array as [|a0 [|a1 [|a2 rest]]].
  - intros Hlen.
    destruct array as [|a0 [|a1 [|a2 rest]]]; simpl in Hlen; try lia.
    pose proof (attemptLoop_tape 1000 (a0 :: a1 :: a2 :: rest) g
                  ltac:(done)) as Htape.
    unfold generateDerangement, generateDerangementWith.
    by destruct (attemptLoop 1000 _ _ g) as [[shuffled|] g'].
Qed.

Lemma random_calls_are_counted_witness :
  3 ≤ length [1; 2; 3; 4] ∧
  pos (generateDerangement [1; 2; 3; 4] (tapeOf [2; 0; 1])).2
  = pos (tapeOf [2; 0; 1]) + 1000 * (length [1; 2; 3; 4] - 1).
Proof.
  assert (H : 3 ≤ length [1; 2; 3; 4]) by (simpl; lia).
  split; [exact H|].
  exact (proj2 (proj2 (proj2 (random_calls_are_counted
                                [1; 2; 3; 4] (tapeOf [2; 0; 1]))) H)).
Defined.

(** ** Which shuffles can be drawn *)

Section ShuffleReach.
Context {T : Type}.
Implicit Types (a p : list T).

Lemma draw_le i (g : Rng) : draws g (pos g) `mod` (i + 1) ≤ i.
Proof. apply (randomIndex_le i g). Qed.

Lemma swap_lookup i j a :
  i < length a → j ≤ i →
  swap i j a !! i = a !! j ∧
  swap i j a !! j = a !! i ∧
  (∀ m, m ≠ i → m ≠ j → swap i j a !! m = a !! m).
Proof.
  intros Hi Hj.
  destruct (swap_in_range i j a Hi Hj) as (ai & aj & Hai & Haj & ->).
  assert (Hj' : j < length a) by lia.
  split; [|split].
  - destruct (decide (i = j)) as [->|Hne].
    + rewrite list_lookup_insert_eq by (by rewrite length_insert). congruence.
    + rewrite list_lookup_insert_ne by done.
      by rewrite list_lookup_insert_eq.
  - by rewrite list_lookup_insert_eq by (by rewrite length_insert).
  - intros m Hmi Hmj. by rewrite !list_lookup_insert_ne.
Qed.

Lemma swap_length i j a : length (swap i j a) = length a.
Proof. apply Permutation_length, swap_Permutation. Qed.

(** The loop entered with counter [i] leaves the cells above [i] alone. *)
Lemma shuffleLoop_above i a g m :
  i < length a → i < m → (shuffleLoop i a g).1 !! m = a !! m.
Proof.
  revert a g. induction i as [|i IH]; intros a g Hi Hm; [done|].
  cbn [shuffleLoop]. unfold randomIndex.
  pose proof (draw_le (S i) g) as Hle.
  rewrite IH by (rewrite ?swap_length; lia).
  destruct (swap_lookup (S i) (draws g (pos g) `mod` (S i + 1)) a Hi Hle)
    as (_ & _ & Hother).
  apply Hother; lia.
Qed.

(** The cell [i] receives the element selected by the first draw. *)
Lemma shuffleLoop_top i a g :
  S i < length a →
  (shuffleLoop (S i) a g).1 !! S i
  = a !! (draws g (pos g) `mod` (S i + 1)).
Proof.
  intros Hi. cbn [shuffleLoop]. unfold randomIndex.
  pose proof (draw_le (S i) g) as Hle.
  rewrite shuffleLoop_above by (rewrite ?swap_length; lia).
  by destruct (swap_lookup (S i) (draws g (pos g) `mod` (S i + 1)) a Hi Hle)
    as (Hsi & _ & _).
Qed.

Lemma shuffleLoop_same_indices i a g1 g2 :
  (∀ k, k < i →
     draws g1 (pos g1 + k) `mod` (i - k + 1)
     = draws g2 (pos g2 + k) `mod` (i - k + 1)) →
  (shuffleLoop i a g1).1 = (shuffleLoop i a g2).1.
Proof.
  revert a g1 g2. induction i as [|i IH]; intros a g1 g2 Hk; [done|].
  cbn [shuffleLoop]. unfold randomIndex.
  pose proof (Hk 0 ltac:(lia)) as H0.
  rewrite !Nat.add_0_r, Nat.sub_0_r in H0. rewrite H0.
  apply IH. intros k Hlt. simpl.
  specialize (Hk (S k) ltac:(lia)).
  replace (pos g1 + S k) with (S (pos g1 + k)) in Hk by lia.
  replace (pos g2 + S k) with (S (pos g2 + k)) in Hk by lia.
  by replace (S i - S k) with (i - k) in Hk by lia.
Qed.

Lemma shuffleLoop_indices_determined i a g1 g2 :
  NoDup a → i < length a →
  (shuffleLoop i a g1).1 = (shuffleLoop i a g2).1 →
  ∀ k, k < i →
    draws g1 (pos g1 + k) `mod` (i - k + 1)
    = draws g2 (pos g2 + k) `mod` (i - k + 1).
Proof.
  revert a g1 g2. induction i as [|i IH]; intros a g1 g2 Hnd Hi Heq k Hk;
    [lia|].
  pose proof (draw_le (S i) g1) as Hle1.
  pose proof (draw_le (S i) g2) as Hle2.
  assert (H0 : draws g1 (pos g1) `mod` (S i + 1)
               = draws g2 (pos g2) `mod` (S i + 1)).
  { pose proof (f_equal (λ l, l !! S i) Heq) as Htop. cbv beta in Htop.
    rewrite !shuffleLoop_top in Htop by done.
    destruct (lookup_lt_is_Some_2 a (draws g1 (pos g1) `mod` (S i + 1))
                ltac:(lia)) as [x Hx].
    rewrite Hx in Htop. symmetry in Htop.
    by apply (NoDup_lookup a _ _ x Hnd). }
  destruct k as [|k].
  - by rewrite !Nat.add_0_r, Nat.sub_0_r.
  - cbn [shuffleLoop] in Heq. unfold randomIndex in Heq. rewrite H0 in Heq.
    set (a' := swap (S i) (draws g2 (pos g2) `mod` (S i + 1)) a) in *.
    assert (Hnd' : NoDup a') by (subst a'; by rewrite swap_Permutation).
    assert (Hi' : i < length a') by (subst a'; rewrite swap_length; lia).
    pose proof (IH a' (mkRng (draws g1) (S (pos g1)))
                  (mkRng (draws g2) (S (pos g2)))
                  Hnd' Hi' Heq k ltac:(lia)) as Hrec.
    simpl in Hrec.
    replace (pos g1 + S k) with (S (pos g1 + k)) by lia.
    replace (pos g2 + S k) with (S (pos g2 + k)) by lia.
    by replace (S i - S k) with (i - k) by lia.
Qed.

Lemma take_swap n i j a :
  i < n → j ≤ i → i < length a →
  take n (swap i j a) ≡ₚ take n a.
Proof.
  intros Hin Hji Hi.
  destruct (swap_in_range i j a Hi Hji) as (ai & aj & Hai & Haj & ->).
  rewrite !take_insert_lt by lia.
  apply Permutation_insert_swap; by rewrite lookup_take_lt by lia.
Qed.

Lemma shuffleLoop_reaches i a p :
  i < length a →
  length p = length a →
  take (S i) p ≡ₚ take (S i) a →
  (∀ m, i < m → p !! m = a !! m) →
  ∃ ds, length ds = i ∧
        ∀ g, (∀ k, k < i → draws g (pos g + k) = nth k ds 0) →
             (shuffleLoop i a g).1 = p.
Proof.
  revert a p. induction i as [|i IH]; intros a p Hi Hlen Hperm Habove.
  - exists []. split; [done|]. intros g _. simpl.
    apply list_eq. intros [|m]; [|symmetry; apply Habove; lia].
    destruct a as [|x a], p as [|y p]; simpl in *; try lia.
    apply Permutation_singleton_r in Hperm. congruence.
  - destruct (lookup_lt_is_Some_2 p (S i) ltac:(lia)) as [x Hx].
    assert (Hin : x ∈ take (S (S i)) a).
    { rewrite <- Hperm. apply list_elem_of_lookup. exists (S i).
      by rewrite lookup_take_lt by lia. }
    apply list_elem_of_lookup in Hin as [j Hj].
    assert (Hjle : j ≤ S i).
    { apply lookup_lt_Some in Hj. rewrite length_take in Hj. lia. }
    rewrite lookup_take_lt in Hj by lia.
    destruct (swap_lookup (S i) j a Hi Hjle) as (Hsi & _ & Hother).
    destruct (IH (swap (S i) j a) p) as (ds & Hds & Hrun).
    + rewrite swap_length. lia.
    + by rewrite swap_length.
    + pose proof (take_swap (S (S i)) (S i) j a ltac:(lia) Hjle Hi) as Hts.
      rewrite <- Hperm in Hts.
      rewrite (take_S_r _ _ x) in Hts by (by rewrite Hsi).
      rewrite (take_S_r p _ x) in Hts by done.
      by apply Permutation_app_inv_r in Hts.
    + intros m Hm. destruct (decide (m = S i)) as [->|Hne].
      * by rewrite Hsi, Hx, Hj.
      * rewrite Hother by lia. apply Habove. lia.
    + exists (j :: ds). split; [simpl; by rewrite Hds|].
      intros g Hg. cbn [shuffleLoop]. unfold randomIndex.
      pose proof (Hg 0 ltac:(lia)) as H0. rewrite Nat.add_0_r in H0.
      simpl in H0. rewrite H0, Nat.mod_small by lia.
      apply Hrun. intros k Hk. simpl.
      specialize (Hg (S k) ltac:(lia)). simpl in Hg.
      by replace (pos g + S k) with (S (pos g + k)) in Hg by lia.
Qed.
End ShuffleReach.

(** X2. On a duplicate-free array the outcome of [shuffleArray] determines
    the index selected at every step, and the selected indices determine
    the outcome: two calls return the same shuffle exactly when
    [Math.floor(Math.random() * (i + 1))] agreed at every step. *)
Theorem shuffle_is_one_to_one_in_the_selected_indices
    {T} (array : list T) (g1 g2 : Rng) :
  NoDup array →
  (shuffleArray array g1).1 = (shuffleArray array g2).1 ↔
  ∀ k, k < length array - 1 →
       draws g1 (pos g1 + k) `mod` (length array - k)
       = draws g2 (pos g2 + k) `mod` (length array - k).
Proof.
  intros Hnd. unfold shuffleArray.
  assert (Hidx : ∀ k, k < length array - 1 →
                      length array - 1 - k + 1 = length array - k)
    by (intros; lia).
  split.
  - intros Heq k Hk. rewrite <- (Hidx k Hk).
    apply (shuffleLoop_indices_determined _ array g1 g2); try done. lia.
  - intros Hk. apply shuffleLoop_same_indices.
    intros k Hlt. rewrite (Hidx k Hlt). by apply Hk.
Qed.

Lemma shuffle_is_one_to_one_in_the_selected_indices_witness :
  NoDup [1; 2; 3] ∧
  ((shuffleArray [1; 2; 3] (tapeOf [4; 1])).1
   = (shuffleArray [1; 2; 3] (tapeOf [1; 3])).1 ↔
   ∀ k, k < length [1; 2; 3] - 1 →
        draws (tapeOf [4; 1]) (pos (tapeOf [4; 1]) + k)
          `mod` (length [1; 2; 3] - k)
        = draws (tapeOf [1; 3]) (pos (tapeOf [1; 3]) + k)
            `mod` (length [1; 2; 3] - k)).
Proof.
  assert (H : NoDup [1; 2; 3]).
  { apply (bool_decide_unpack _). vm_compute. exact I. }
  split; [exact H|].
  exact (shuffle_is_one_to_one_in_the_selected_indices
           [1; 2; 3] (tapeOf [4; 1]) (tapeOf [1; 3]) H).
Defined.

(** X3. Every rearrangement of the input can be returned by
    [shuffleArray]: for each permutation there is a sequence of
    [length - 1] draws that produces it. *)
Theorem every_permutation_can_be_shuffled {T} (array p : list T) :
  p ≡ₚ array →
  ∃ ds, length ds = length array - 1 ∧
        (shuffleArray array (tapeOf ds)).1 = p.
Proof.
  intros Hperm. pose proof (Permutation_length Hperm) as Hlen.
  destruct array as [|x array].
  { apply Permutation_nil_r in Hperm as ->. by exists []. }
  destruct (shuffleLoop_reaches (length (x :: array) - 1) (x :: array) p)
    as (ds & Hds & Hrun).
  - simpl. lia.
  - done.
  - rewrite !firstn_all2 by (simpl in *; lia). done.
  - intros m Hm. rewrite !lookup_ge_None_2 by (simpl in *; lia). done.
  - exists ds. split; [done|]. apply Hrun. by intros k _.
Qed.

Lemma every_permutation_can_be_shuffled_witness :
  [3; 1; 2] ≡ₚ [1; 2; 3] ∧
  ∃ ds, length ds = length [1; 2; 3] - 1 ∧
        (shuffleArray [1; 2; 3] (tapeOf ds)).1 = [3; 1; 2].
Proof.
  assert (H : [3; 1; 2] ≡ₚ [1; 2; 3]).
  { exact (Permutation_app_comm [3] [1; 2]). }
  split; [exact H|].
  exact (every_permutation_can_be_shuffled [1; 2; 3] [3; 1; 2] H).
Defined.

(** ** More on the orchestrator *)

Lemma fmap_pair_zip {A B C} (f : A → B) (g : A → C) (l : list A) :
  (λ x, (f x, g x)) <$> l = zip (f <$> l) (g <$> l).
Proof. induction l as [|x l IH]; [done|]. rewrite !fmap_cons. simpl. by f_equal. Qed.

(** X4. The pairs written by a successful run do not depend on the random
    source: whatever [Math.random] returns, the santa at position [i] of
    the participant list gets the participant at position [i - 1] (the
    first one gets the last).  Two successful runs on the same store write
    the same (santa, receiver) pairs. *)
Theorem pairs_do_not_depend_on_the_random_source
    faults1 faults2 eventId w1 w2 w1' w2' :
  db w1 = db w2 →
  assignSecretSanta faults1 eventId w1 = (Ok tt, w1') →
  assignSecretSanta faults2 eventId w2 = (Ok tt, w2') →
  (λ r, (a_santaUserId r, a_receiverUserId r)) <$> rowsOf eventId (db w1')
  = zip (u_id <$> participantsOf eventId (db w1))
        (cyclicShift (u_id <$> participantsOf eventId (db w1))) ∧
  (λ r, (a_santaUserId r, a_receiverUserId r)) <$> rowsOf eventId (db w2')
  = (λ r, (a_santaUserId r, a_receiverUserId r)) <$> rowsOf eventId (db w1').
Proof.
  intros Hdb (ev1 & g1 & rows1 & He1)%assignSecretSanta_effect
             (ev2 & g2 & rows2 & He2)%assignSecretSanta_effect.
  rewrite (eff_rowsOf _ _ _ _ _ _ He1), (eff_rowsOf _ _ _ _ _ _ He2).
  rewrite !fmap_pair_zip.
  rewrite (eff_santas _ _ _ _ _ _ He1), (eff_receivers _ _ _ _ _ _ He1).
  rewrite (eff_santas _ _ _ _ _ _ He2), (eff_receivers _ _ _ _ _ _ He2).
  rewrite <- Hdb. by rewrite fmap_cyclicShift.
Qed.

Lemma pairs_do_not_depend_on_the_random_source_witness :
  let w1 := Scenario.world in
  let w2 := mkWorld Scenario.store 5000 (tapeOf [9; 9; 9; 9; 9; 9]) in
  let w1' := (assignSecretSanta noFaults 1 w1).2 in
  let w2' := (assignSecretSanta noFaults 1 w2).2 in
  (db w1 = db w2 ∧
   assignSecretSanta noFaults 1 w1 = (Ok tt, w1') ∧
   assignSecretSanta noFaults 1 w2 = (Ok tt, w2')) ∧
  (λ r, (a_santaUserId r, a_receiverUserId r)) <$> rowsOf 1 (db w1')
  = zip (u_id <$> participantsOf 1 (db w1))
        (cyclicShift (u_id <$> participantsOf 1 (db w1))) ∧
  (λ r, (a_santaUserId r, a_receiverUserId r)) <$> rowsOf 1 (db w2')
  = (λ r, (a_santaUserId r, a_receiverUserId r)) <$> rowsOf 1 (db w1').
Proof.
  intros w1 w2 w1' w2'.
  assert (H1 : db w1 = db w2) by reflexivity.
  assert (H2 : assignSecretSanta noFaults 1 w1 = (Ok tt, w1'))
    by (vm_compute; reflexivity).
  assert (H3 : assignSecretSanta noFaults 1 w2 = (Ok tt, w2'))
    by (vm_compute; reflexivity).
  split; [exact (conj H1 (conj H2 H3))|].
  exact (pairs_do_not_depend_on_the_random_source
           noFaults noFaults 1 w1 w2 w1' w2' H1 H2 H3).
Defined.

Lemma savedEvents_other eventId event d e' us rows :
  ev_id event = eventId → e' ≠ eventId →
  eventOf e' (mkDb (savedEvents event d) us rows) = eventOf e' d.
Proof.
  intros Hid Hne. unfold eventOf, savedEvents. simpl.
  f_equal. induction (events d) as [|e es IH]; [done|].
  rewrite fmap_cons, !filter_cons, IH.
  destruct (decide (ev_id e = ev_id event)) as [Heq|Hneq].
  - simpl. rewrite !decide_False by congruence. done.
  - done.
Qed.

(** X5. A run on one event leaves every other event alone: the rows and
    the document of any other event, and all users, are unchanged; of the
    event itself only the status changes. *)
Theorem a_run_touches_one_event_only faults eventId w w' r :
  assignSecretSanta faults eventId w = (r, w') →
  users (db w') = users (db w) ∧
  (∀ e, e ≠ eventId →
        rowsOf e (db w') = rowsOf e (db w) ∧
        eventOf e (db w') = eventOf e (db w)) ∧
  (∀ ev', eventOf eventId (db w') = Some ev' →
          ∃ ev, eventOf eventId (db w) = Some ev ∧
                ev_id ev' = ev_id ev ∧ ev_name ev' = ev_name ev ∧
                ev_budgetLimit ev' = ev_budgetLimit ev ∧
                ev_registrationDeadline ev' = ev_registrationDeadline ev).
Proof.
  intros Hrun. destruct r as [[]|e].
  - apply assignSecretSanta_effect in Hrun as (event & g1 & rows & He).
    pose proof (eff_event _ _ _ _ _ _ He) as Hev.
    pose proof (eventOf_id _ _ _ Hev) as Hid.
    split; [apply (eff_users _ _ _ _ _ _ He)|]. split.
    + intros e Hne. split.
      * unfold rowsOf. rewrite (eff_assignments _ _ _ _ _ _ He).
        rewrite filter_app.
        rewrite (filter_none _ rows).
        { rewrite app_nil_r. unfold otherRows.
          rewrite list_filter_filter. apply list_filter_iff.
          intros a. split; [tauto|]. intros Ha. split; [done|congruence]. }
        eapply Forall_impl; [apply (eff_eventId _ _ _ _ _ _ He)|].
        simpl. intros a Ha. congruence.
      * rewrite <- (savedEvents_other eventId event (db w) e
                      (users (db w')) (assignments (db w')) Hid Hne).
        rewrite <- (eff_events _ _ _ _ _ _ He). by destruct (db w').
    + intros ev' Hev'. exists event. split; [done|].
      pose proof (savedEvents_status eventId event (db w) (users (db w'))
                    (assignments (db w')) Hev) as Hst.
      rewrite <- (eff_events _ _ _ _ _ _ He) in Hst.
      replace (mkDb (events (db w')) (users (db w')) (assignments (db w')))
        with (db w') in Hst by by destruct (db w').
      rewrite Hst in Hev'. by injection Hev' as <-.
  - apply assignSecretSanta_Throw in Hrun. rewrite Hrun.
    split; [done|]. split; [done|].
    intros ev' Hev'. by exists ev'.
Qed.

Lemma assignSecretSanta_outcome faults eventId w :
  (∀ op, faults op = false) →
  NoDup (u_id <$> participantsOf eventId (db w)) →
  (assignSecretSanta faults eventId w).1
  = match eventOf eventId (db w) with
    | None => Throw EventNotFound
    | Some _ =>
        if decide (length (participantsOf eventId (db w)) < 2)
        then Throw InsufficientParticipants
        else Ok tt
    end.
Proof.
  intros Hf Hnd. destruct (eventOf eventId (db w)) as [ev|] eqn:Hev.
  - case_decide as Hlen.
    + by rewrite assignSecretSanta_InsufficientParticipants by eauto.
    + destruct (assignSecretSanta_succeeds faults eventId w) as [w' ->];
        eauto. lia.
  - by rewrite assignSecretSanta_EventNotFound by eauto.
Qed.

Lemma a_run_touches_one_event_only_witness :
  let run := assignSecretSanta noFaults 1 Scenario.world in
  run = (run.1, run.2) ∧
  users (db run.2) = users (db Scenario.world) ∧
  (∀ e, e ≠ 1 →
        rowsOf e (db run.2) = rowsOf e (db Scenario.world) ∧
        eventOf e (db run.2) = eventOf e (db Scenario.world)) ∧
  (∀ ev', eventOf 1 (db run.2) = Some ev' →
          ∃ ev, eventOf 1 (db Scenario.world) = Some ev ∧
                ev_id ev' = ev_id ev ∧ ev_name ev' = ev_name ev ∧
                ev_budgetLimit ev' = ev_budgetLimit ev ∧
                ev_registrationDeadline ev' = ev_registrationDeadline ev).
Proof.
  intros run.
  assert (H : run = (run.1, run.2)) by (by destruct run).
  split; [exact H|].
  exact (a_run_touches_one_event_only noFaults 1 Scenario.world _ _ H).
Defined.

(** X6. With a store that answers every call and participants with
    pairwise different identifiers, the outcome of a run is decided by the
    event and the number of its participants alone: "Event not found" when
    the event is missing, "Need at least 2 participants..." when it has
    fewer than two, success otherwise. *)
Theorem outcome_of_a_run faults eventId w :
  (∀ op, faults op = false) →
  NoDup (u_id <$> participantsOf eventId (db w)) →
  (assignSecretSanta faults eventId w).1
  = match eventOf eventId (db w) with
    | None => Throw EventNotFound
    | Some _ =>
        if decide (length (participantsOf eventId (db w)) < 2)
        then Throw InsufficientParticipants
        else Ok tt
    end.
Proof. apply assignSecretSanta_outcome. Qed.

Lemma outcome_of_a_run_witness :
  ((∀ op, noFaults op = false) ∧
   NoDup (u_id <$> participantsOf 3 (db Scenario.world))) ∧
  (assignSecretSanta noFaults 3 Scenario.world).1
  = match eventOf 3 (db Scenario.world) with
    | None => Throw EventNotFound
    | Some _ =>
        if decide (length (participantsOf 3 (db Scenario.world)) < 2)
        then Throw InsufficientParticipants
        else Ok tt
    end.
Proof.
  assert (H1 : ∀ op, noFaults op = false) by reflexivity.
  assert (H2 : NoDup (u_id <$> participantsOf 3 (db Scenario.world))).
  { apply (bool_decide_unpack _). vm_compute. exact I. }
  split; [exact (conj H1 H2)|].
  exact (outcome_of_a_run noFaults 3 Scenario.world H1 H2).
Defined.

(** X7. [getUserAssignment] answers [null] exactly when the participant
    has no row in the event; that is a result, not an exception.  When the
    row exists but its receiver reference resolves to no user, the call
    throws a [TypeError]. *)
Theorem getUserAssignment_without_row_or_receiver faults eventId userId d :
  faults OpFindOne = false →
  (getUserAssignment faults eventId userId d = Ok None ↔
   ∀ a, a ∈ assignments d →
        ¬ (a_eventId a = eventId ∧ a_santaUserId a = userId)) ∧
  (faults OpPopulate = false →
   ∀ a, head (filter (λ a, a_eventId a = eventId ∧ a_santaUserId a = userId)
                     (assignments d)) = Some a →
        (∀ u, u ∈ users d → u_id u ≠ a_receiverUserId a) →
        getUserAssignment faults eventId userId d = Throw TypeError).
Proof.
  intros Hf. unfold getUserAssignment, populateReceiver. rewrite Hf. split.
  - destruct (head (filter _ (assignments d))) as [a|] eqn:Ha.
    + split.
      * destruct (faults OpPopulate); [done|].
        by destruct (head (filter _ (users d))).
      * intros Hnone. apply head_Some_elem_of in Ha.
        apply list_elem_of_filter in Ha as [HP Hin]. by destruct (Hnone a).
    + split; [|done]. intros _ a Hin HP.
      apply head_None in Ha.
      by apply (filter_nil_not_elem_of _ _ a Ha).
  - intros Hp a Ha Hnone. rewrite Ha, Hp.
    destruct (head (filter _ (users d))) as [u|] eqn:Hu; [|done].
    apply head_Some_elem_of, list_elem_of_filter in Hu as [Hid Hin].
    by destruct (Hnone u).
Qed.

Lemma getUserAssignment_without_row_or_receiver_witness :
  noFaults OpFindOne = false ∧
  (getUserAssignment noFaults 1 11 Scenario.store = Ok None ↔
   ∀ a, a ∈ assignments Scenario.store →
        ¬ (a_eventId a = 1 ∧ a_santaUserId a = 11)) ∧
  (noFaults OpPopulate = false →
   ∀ a, head (filter (λ a, a_eventId a = 3 ∧ a_santaUserId a = 31)
                     (assignments Scenario.store)) = Some a →
        (∀ u, u ∈ users Scenario.store → u_id u ≠ a_receiverUserId a) →
        getUserAssignment noFaults 3 31 Scenario.store = Throw TypeError).
Proof.
  split; [reflexivity|]. split.
  - exact (proj1 (getUserAssignment_without_row_or_receiver
                    noFaults 1 11 Scenario.store eq_refl)).
  - exact (proj2 (getUserAssignment_without_row_or_receiver
                    noFaults 3 31 Scenario.store eq_refl)).
Defined.

(** ** The administrator's read *)

Lemma mapResult_Ok {A B} (f : A → Result B) l ys :
  mapResult f l = Ok ys ↔ Forall2 (λ x y, f x = Ok y) l ys.
Proof.
  revert ys. induction l as [|x l IH]; intros ys; simpl.
  - split; [intros [= <-]; constructor|by inversion 1].
  - destruct (f x) as [y|e] eqn:Hfx.
    + destruct (mapResult f l) as [ys'|e] eqn:Hrec.
      * split.
        -- intros [= <-]. constructor; [done|]. by apply IH.
        -- inversion 1 as [|???? Hy Hrest]; subst.
           apply IH in Hrest. congruence.
      * split; [done|]. inversion 1 as [|???? Hy Hrest]; subst.
        apply IH in Hrest. done.
    + split; [done|]. inversion 1; congruence.
Qed.

Lemma mapResult_all_Ok {A B} (f : A → Result B) l :
  Forall (λ x, isOk (f x) = true) l → isOk (mapResult f l) = true.
Proof.
  induction 1 as [|x l Hx _ IH]; simpl; [done|].
  destruct (f x); [|done]. by destruct (mapResult f l).
Qed.

Lemma mapResult_Throw {A B} (f : A → Result B) l e :
  mapResult f l = Throw e → ∃ x, x ∈ l ∧ f x = Throw e.
Proof.
  induction l as [|x l IH]; simpl; [done|].
  destruct (f x) as [y|e'] eqn:Hfx.
  - destruct (mapResult f l) as [ys|e'']; [done|].
    intros [= ->]. destruct IH as (x' & Hin & Hx'); [done|].
    exists x'. split; [by right|done].
  - intros [= ->]. exists x. split; [by left|done].
Qed.

Lemma populateParty_Some ref d p :
  populateParty ref d = Some p →
  ∃ u, u ∈ users d ∧ u_id u = ref ∧ p = partyOf u.
Proof.
  unfold populateParty.
  destruct (head (filter _ (users d))) as [u|] eqn:Hu; [|done].
  intros [= <-]. exists u.
  by apply head_Some_elem_of, list_elem_of_filter in Hu as [? ?].
Qed.

Lemma populateParty_is_Some ref d :
  is_Some (populateParty ref d) ↔ ∃ u, u ∈ users d ∧ u_id u = ref.
Proof.
  unfold populateParty. rewrite fmap_is_Some, head_is_Some. split.
  - intros Hne. destruct (filter _ (users d)) as [|u l] eqn:Hf; [done|].
    exists u. assert (Hin : u ∈ filter (λ u, u_id u = ref) (users d))
      by (rewrite Hf; by left).
    by apply list_elem_of_filter in Hin as [? ?].
  - intros (u & Hin & Hid) Hnil.
    by apply (filter_nil_not_elem_of _ _ u Hnil).
Qed.

Lemma toFullAssignment_Ok d a x :
  toFullAssignment d a = Ok x →
  full_receiverNumber x = a_receiverNumber a ∧
  populateParty (a_santaUserId a) d = Some (full_santa x) ∧
  populateParty (a_receiverUserId a) d = Some (full_receiver x).
Proof.
  unfold toFullAssignment.
  destruct (populateParty (a_santaUserId a) d) as [s|]; [|done].
  destruct (populateParty (a_receiverUserId a) d) as [r|]; [|done].
  by intros [= <-].
Qed.

Lemma toFullAssignment_Throw d a e :
  toFullAssignment d a = Throw e →
  e = TypeError ∧
  (populateParty (a_santaUserId a) d = None ∨
   populateParty (a_receiverUserId a) d = None).
Proof.
  unfold toFullAssignment.
  destruct (populateParty (a_santaUserId a) d) as [s|];
    [|intros [= <-]; auto].
  destruct (populateParty (a_receiverUserId a) d) as [r|];
    [done|intros [= <-]; auto].
Qed.

Lemma party_ids_of_entries d srt xs :
  Forall2 (λ a x, toFullAssignment d a = Ok x) srt xs →
  full_receiverNumber <$> xs = a_receiverNumber <$> srt ∧
  (party_id ∘ full_santa) <$> xs = a_santaUserId <$> srt ∧
  (party_id ∘ full_receiver) <$> xs = a_receiverUserId <$> srt.
Proof.
  induction 1 as [|a x srt xs Hax _ (IH1 & IH2 & IH3)]; [done|].
  apply toFullAssignment_Ok in Hax as (Hn & Hs & Hr).
  apply populateParty_Some in Hs as (us & _ & Hus & Hps).
  apply populateParty_Some in Hr as (ur & _ & Hur & Hpr).
  rewrite !fmap_cons. simpl. rewrite IH1, IH2, IH3, Hn, Hps, Hpr. simpl.
  by rewrite Hus, Hur.
Qed.

Global Instance byReceiverNumber_total : Total byReceiverNumber.
Proof. intros a b. unfold byReceiverNumber. lia. Qed.
Global Instance byReceiverNumber_trans : Transitive byReceiverNumber.
Proof. intros a b c. unfold byReceiverNumber. lia. Qed.

Lemma getAllAssignments_Ok faults eventId d xs :
  getAllAssignments faults eventId d = Ok xs →
  Forall2 (λ a x, toFullAssignment d a = Ok x)
          (merge_sort byReceiverNumber (rowsOf eventId d)) xs.
Proof.
  unfold getAllAssignments, rowsOf.
  destruct (faults OpFindOne); [done|]. destruct (faults OpPopulate); [done|].
  apply mapResult_Ok.
Qed.

Lemma Sorted_le_seq j n : Sorted le (seq j n).
Proof.
  revert j. induction n as [|n IH]; intros j; simpl; [constructor|].
  constructor; [apply IH|]. destruct n; simpl; constructor. lia.
Qed.

Lemma getAllAssignments_sorted faults eventId d xs :
  getAllAssignments faults eventId d = Ok xs →
  length xs = length (rowsOf eventId d) ∧
  Sorted le (full_receiverNumber <$> xs) ∧
  full_receiverNumber <$> xs ≡ₚ a_receiverNumber <$> rowsOf eventId d ∧
  (party_id ∘ full_santa) <$> xs ≡ₚ a_santaUserId <$> rowsOf eventId d ∧
  (party_id ∘ full_receiver) <$> xs
    ≡ₚ a_receiverUserId <$> rowsOf eventId d.
Proof.
  intros Hall%getAllAssignments_Ok.
  pose proof (Forall2_length _ _ _ Hall) as Hlen.
  destruct (party_ids_of_entries _ _ _ Hall) as (Hn & Hs & Hr).
  pose proof (merge_sort_Permutation byReceiverNumber (rowsOf eventId d))
    as Hperm.
  rewrite Hn, Hs, Hr. split; [|split; [|split; [|split]]].
  - by rewrite <- Hlen, Hperm.
  - apply (Sorted_fmap a_receiverNumber byReceiverNumber le); [done|].
    apply Sorted_merge_sort. apply _.
  - by rewrite Hperm.
  - by rewrite Hperm.
  - by rewrite Hperm.
Qed.

(** X8. [getAllAssignments] returns one entry per assignment row of the
    event, in ascending order of receiver number; the numbers and the
    santa and receiver identifiers of the entries are those of the rows. *)
Theorem full_mapping_is_sorted_by_number faults eventId d xs :
  getAllAssignments faults eventId d = Ok xs →
  length xs = length (rowsOf eventId d) ∧
  Sorted le (full_receiverNumber <$> xs) ∧
  full_receiverNumber <$> xs ≡ₚ a_receiverNumber <$> rowsOf eventId d ∧
  (party_id ∘ full_santa) <$> xs ≡ₚ a_santaUserId <$> rowsOf eventId d ∧
  (party_id ∘ full_receiver) <$> xs
    ≡ₚ a_receiverUserId <$> rowsOf eventId d.
Proof. apply getAllAssignments_sorted. Qed.

Lemma full_mapping_is_sorted_by_number_witness :
  let xs := [mkFull (partyOf Scenario.user2) (partyOf Scenario.user1) 1;
             mkFull (partyOf Scenario.user1) (partyOf Scenario.user2) 2] in
  getAllAssignments noFaults 2 Cases.reversedStore = Ok xs ∧
  length xs = length (rowsOf 2 Cases.reversedStore) ∧
  Sorted le (full_receiverNumber <$> xs) ∧
  full_receiverNumber <$> xs
    ≡ₚ a_receiverNumber <$> rowsOf 2 Cases.reversedStore ∧
  (party_id ∘ full_santa) <$> xs
    ≡ₚ a_santaUserId <$> rowsOf 2 Cases.reversedStore ∧
  (party_id ∘ full_receiver) <$> xs
    ≡ₚ a_receiverUserId <$> rowsOf 2 Cases.reversedStore.
Proof.
  intros xs.
  assert (H : getAllAssignments noFaults 2 Cases.reversedStore = Ok xs)
    by (vm_compute; reflexivity).
  split; [exact H|].
  exact (full_mapping_is_sorted_by_number
           noFaults 2 Cases.reversedStore xs H).
Defined.

Lemma getAllAssignments_references faults eventId d :
  faults OpFindOne = false → faults OpPopulate = false →
  ((∀ a, a ∈ rowsOf eventId d →
         (∃ u, u ∈ users d ∧ u_id u = a_santaUserId a) ∧
         (∃ u, u ∈ users d ∧ u_id u = a_receiverUserId a)) →
   ∃ xs, getAllAssignments faults eventId d = Ok xs) ∧
  (∀ a, a ∈ rowsOf eventId d →
        (∀ u, u ∈ users d → u_id u ≠ a_santaUserId a) ∨
        (∀ u, u ∈ users d → u_id u ≠ a_receiverUserId a) →
        getAllAssignments faults eventId d = Throw TypeError).
Proof.
  intros Hf Hp. unfold getAllAssignments. rewrite Hf, Hp.
  fold (rowsOf eventId d).
  pose proof (merge_sort_Permutation byReceiverNumber (rowsOf eventId d))
    as Hperm.
  split.
  - intros Hall.
    assert (Hok : isOk (mapResult (toFullAssignment d)
                   (merge_sort byReceiverNumber (rowsOf eventId d))) = true).
    { apply mapResult_all_Ok, Forall_forall. intros a Ha.
      rewrite Hperm in Ha. destruct (Hall a Ha) as [Hs Hr].
      apply populateParty_is_Some in Hs as [s Hs].
      apply populateParty_is_Some in Hr as [r Hr].
      unfold toFullAssignment. by rewrite Hs, Hr. }
    destruct (mapResult _ _) as [xs|e]; [by exists xs|done].
  - intros a Ha Hdangling.
    destruct (mapResult _ _) as [xs|e] eqn:Hmap.
    + exfalso. apply mapResult_Ok in Hmap.
      rewrite <- Hperm in Ha. apply list_elem_of_lookup in Ha as [i Hi].
      destruct (Forall2_lookup_l _ _ _ _ _ Hmap Hi) as (x & _ & Hx).
      apply toFullAssignment_Ok in Hx as (_ & Hs & Hr).
      apply populateParty_Some in Hs as (us & Hus & Hids & _).
      apply populateParty_Some in Hr as (ur & Hur & Hidr & _).
      destruct Hdangling as [Hd|Hd]; [by apply (Hd us)|by apply (Hd ur)].
    + apply mapResult_Throw in Hmap as (a' & _ & Ha').
      by apply toFullAssignment_Throw in Ha' as [-> _].
Qed.

(** X10. With a store that answers, [getAllAssignments] returns the
    mapping when every santa and receiver reference of the event's rows
    resolves to a user, and throws a [TypeError] (no partial list) as soon
    as one reference resolves to none. *)
Theorem full_mapping_needs_every_reference faults eventId d :
  faults OpFindOne = false → faults OpPopulate = false →
  ((∀ a, a ∈ rowsOf eventId d →
         (∃ u, u ∈ users d ∧ u_id u = a_santaUserId a) ∧
         (∃ u, u ∈ users d ∧ u_id u = a_receiverUserId a)) →
   ∃ xs, getAllAssignments faults eventId d = Ok xs) ∧
  (∀ a, a ∈ rowsOf eventId d →
        (∀ u, u ∈ users d → u_id u ≠ a_santaUserId a) ∨
        (∀ u, u ∈ users d → u_id u ≠ a_receiverUserId a) →
        getAllAssignments faults eventId d = Throw TypeError).
Proof. apply getAllAssignments_references. Qed.

Lemma full_mapping_needs_every_reference_witness :
  (noFaults OpFindOne = false ∧ noFaults OpPopulate = false) ∧
  (∀ a, a ∈ rowsOf 3 Scenario.store →
        (∀ u, u ∈ users Scenario.store → u_id u ≠ a_santaUserId a) ∨
        (∀ u, u ∈ users Scenario.store → u_id u ≠ a_receiverUserId a) →
        getAllAssignments noFaults 3 Scenario.store = Throw TypeError) ∧
  getAllAssignments noFaults 3 Scenario.store = Throw TypeError.
Proof.
  split; [split; reflexivity|]. split.
  - exact (proj2 (full_mapping_needs_every_reference
                    noFaults 3 Scenario.store eq_refl eq_refl)).
  - vm_compute. reflexivity.
Defined.

Lemma head_filter_unique_id (us : list IUser) (p : IUser) :
  NoDup (u_id <$> us) → p ∈ us →
  head (filter (λ u, u_id u = u_id p) us) = Some p.
Proof.
  induction us as [|u us IH]; intros Hnd Hin; [by apply elem_of_nil in Hin|].
  rewrite fmap_cons in Hnd. apply NoDup_cons in Hnd as [Hu Hnd].
  rewrite filter_cons. apply elem_of_cons in Hin as [->|Hin].
  - by rewrite decide_True.
  - rewrite decide_False; [by apply IH|].
    intros Heq. apply Hu. rewrite Heq. by apply list_elem_of_fmap_2.
Qed.

Lemma participantsOf_users eventId d p :
  p ∈ participantsOf eventId d → p ∈ users d.
Proof. by intros [_ ?]%list_elem_of_filter. Qed.

(** X9. After a successful run on a store whose users have pairwise
    different identifiers, [getAllAssignments] returns the whole mapping:
    the n-th entry carries receiver number n (1, 2, ..., N in order), the
    santas are the participants, each once, and so are the receivers;
    every entry shows the name, address and wishlist of two different
    participants. *)
Theorem full_mapping_after_a_run faults faults' eventId w w' :
  NoDup (u_id <$> users (db w)) →
  faults' OpFindOne = false → faults' OpPopulate = false →
  assignSecretSanta faults eventId w = (Ok tt, w') →
  ∃ xs,
    getAllAssignments faults' eventId (db w') = Ok xs ∧
    full_receiverNumber <$> xs
      = seq 1 (length (participantsOf eventId (db w))) ∧
    (party_id ∘ full_santa) <$> xs
      ≡ₚ u_id <$> participantsOf eventId (db w) ∧
    (party_id ∘ full_receiver) <$> xs
      ≡ₚ u_id <$> participantsOf eventId (db w) ∧
    Forall (λ x, ∃ s r,
              s ∈ participantsOf eventId (db w) ∧
              r ∈ participantsOf eventId (db w) ∧
              full_santa x = partyOf s ∧ full_receiver x = partyOf r ∧
              u_id s ≠ u_id r) xs.
Proof.
  intros Hnd Hf Hp Hrun.
  pose proof Hrun as (event & g1 & rows & He)%assignSecretSanta_effect.
  pose proof (eff_rowsOf _ _ _ _ _ _ He) as Hrows.
  pose proof (eff_users _ _ _ _ _ _ He) as Hus.
  pose proof (eff_santas _ _ _ _ _ _ He) as Hs.
  pose proof (eff_receivers _ _ _ _ _ _ He) as Hr.
  assert (HndP : NoDup (u_id <$> participantsOf eventId (db w))).
  { apply (sublist_NoDup _ (u_id <$> users (db w)) Hnd).
    apply fmap_sublist. unfold participantsOf. apply sublist_filter. }
  destruct (RunEffect_complete _ _ _ _ _ _ He HndP)
    as (_ & Hsp & Hrp & Hself).
  (* every reference of the new rows resolves to a participant *)
  assert (Hres : ∀ a, a ∈ rowsOf eventId (db w') →
            ∃ s r, s ∈ participantsOf eventId (db w) ∧
                   r ∈ participantsOf eventId (db w) ∧
                   u_id s = a_santaUserId a ∧ u_id r = a_receiverUserId a).
  { intros a Ha. rewrite Hrows in Ha.
    pose proof (list_elem_of_fmap_2 a_santaUserId _ _ Ha) as Has.
    pose proof (list_elem_of_fmap_2 a_receiverUserId _ _ Ha) as Har.
    rewrite Hsp in Has. rewrite Hrp in Har.
    apply list_elem_of_fmap in Has as (s & Hids & Hins).
    apply list_elem_of_fmap in Har as (r & Hidr & Hinr).
    by exists s, r. }
  destruct (proj1 (getAllAssignments_references
                     faults' eventId (db w') Hf Hp)) as [xs Hxs].
  { intros a Ha. destruct (Hres a Ha) as (s & r & Hins & Hinr & Hids & Hidr).
    rewrite Hus. split; [exists s|exists r];
      (split; [by eapply participantsOf_users|done]). }
  exists xs. split; [done|].
  destruct (getAllAssignments_sorted _ _ _ _ Hxs)
    as (_ & Hsorted & Hnperm & Hsperm & Hrperm).
  rewrite Hrows in Hnperm, Hsperm, Hrperm.
  split; [|split; [|split]].
  - apply (Sorted_unique le); [done| |].
    + apply Sorted_le_seq.
    + rewrite Hnperm. apply (RunEffect_numbers _ _ _ _ _ _ He).
  - by rewrite Hsperm.
  - by rewrite Hrperm.
  - apply getAllAssignments_Ok in Hxs.
    apply Forall_forall. intros x Hx.
    apply list_elem_of_lookup in Hx as [i Hi].
    destruct (Forall2_lookup_r _ _ _ _ _ Hxs Hi) as (a & Ha & Hax).
    apply list_elem_of_lookup_2 in Ha.
    rewrite merge_sort_Permutation in Ha.
    destruct (Hres a Ha) as (s & r & Hins & Hinr & Hids & Hidr).
    apply toFullAssignment_Ok in Hax as (_ & Hps & Hpr).
    unfold populateParty in Hps, Hpr. rewrite Hus in Hps, Hpr.
    rewrite <- Hids, (head_filter_unique_id _ s Hnd) in Hps
      by by eapply participantsOf_users.
    rewrite <- Hidr, (head_filter_unique_id _ r Hnd) in Hpr
      by by eapply participantsOf_users.
    exists s, r.
    split; [done|]. split; [done|].
    simpl in Hps, Hpr. injection Hps as Hps. injection Hpr as Hpr.
    split; [done|]. split; [done|].
    rewrite Hrows in Ha. rewrite Forall_forall in Hself.
    rewrite Hids, Hidr. by apply Hself.
Qed.

Lemma full_mapping_after_a_run_witness :
  let w' := (assignSecretSanta noFaults 1 Scenario.world).2 in
  (NoDup (u_id <$> users (db Scenario.world)) ∧
   assignSecretSanta noFaults 1 Scenario.world = (Ok tt, w')) ∧
  ∃ xs,
    getAllAssignments noFaults 1 (db w') = Ok xs ∧
    full_receiverNumber <$> xs
      = seq 1 (length (participantsOf 1 (db Scenario.world))) ∧
    (party_id ∘ full_santa) <$> xs
      ≡ₚ u_id <$> participantsOf 1 (db Scenario.world) ∧
    (party_id ∘ full_receiver) <$> xs
      ≡ₚ u_id <$> participantsOf 1 (db Scenario.world) ∧
    Forall (λ x, ∃ s r,
              s ∈ participantsOf 1 (db Scenario.world) ∧
              r ∈ participantsOf 1 (db Scenario.world) ∧
              full_santa x = partyOf s ∧ full_receiver x = partyOf r ∧
              u_id s ≠ u_id r) xs.
Proof.
  intros w'.
  assert (H1 : NoDup (u_id <$> users (db Scenario.world))).
  { apply (bool_decide_unpack _). vm_compute. exact I. }
  assert (H2 : assignSecretSanta noFaults 1 Scenario.world = (Ok tt, w'))
    by (vm_compute; reflexivity).
  split; [exact (conj H1 H2)|].
  exact (full_mapping_after_a_run noFaults noFaults 1 Scenario.world w'
           H1 eq_refl eq_refl H2).
Defined.

Lemma head_filter_unique {A B} `{EqDecision B} (f : A → B) (l : list A) x :
  NoDup (f <$> l) → x ∈ l →
  head (filter (λ y, f y = f x) l) = Some x.
Proof.
  induction l as [|y l IH]; intros Hnd Hin; [by apply elem_of_nil in Hin|].
  rewrite fmap_cons in Hnd. apply NoDup_cons in Hnd as [Hy Hnd].
  rewrite filter_cons. apply elem_of_cons in Hin as [->|Hin].
  - by rewrite decide_True.
  - rewrite decide_False; [by apply IH|].
    intros Heq. apply Hy. rewrite Heq. by apply list_elem_of_fmap_2.
Qed.

Lemma findOne_unique_santa eventId d a :
  NoDup (a_santaUserId <$> rowsOf eventId d) →
  a ∈ rowsOf eventId d →
  head (filter (λ r, a_eventId r = eventId ∧
                     a_santaUserId r = a_santaUserId a)
               (assignments d)) = Some a.
Proof.
  intros Hnd Hin.
  rewrite <- (head_filter_unique a_santaUserId (rowsOf eventId d) a Hnd Hin).
  f_equal. unfold rowsOf. rewrite list_filter_filter.
  apply list_filter_iff. intros r. tauto.
Qed.

Lemma populateReceiver_party ref d p :
  populateParty ref d = Some p →
  p_wishlist <$> populateReceiver ref d = Some (party_wishlist p).
Proof.
  unfold populateParty, populateReceiver.
  destruct (head (filter _ (users d))) as [u|]; [|done].
  by intros [= <-].
Qed.

Lemma reads_agree faults faults' eventId d xs x :
  getAllAssignments faults eventId d = Ok xs →
  x ∈ xs →
  NoDup (a_santaUserId <$> rowsOf eventId d) →
  faults' OpFindOne = false → faults' OpPopulate = false →
  getUserAssignment faults' eventId (party_id (full_santa x)) d
  = Ok (Some (mkUserAssignment (full_receiverNumber x)
                               (party_wishlist (full_receiver x)))).
Proof.
  intros Hall%getAllAssignments_Ok Hx Hnd Hf Hp.
  apply list_elem_of_lookup in Hx as [i Hi].
  destruct (Forall2_lookup_r _ _ _ _ _ Hall Hi) as (a & Ha & Hax).
  apply list_elem_of_lookup_2 in Ha. rewrite merge_sort_Permutation in Ha.
  apply toFullAssignment_Ok in Hax as (Hn & Hs & Hr).
  pose proof (populateParty_Some _ _ _ Hs) as (us & _ & Hus & Hps).
  assert (Hid : party_id (full_santa x) = a_santaUserId a)
    by (by rewrite Hps).
  unfold getUserAssignment. rewrite Hf, Hid.
  rewrite (findOne_unique_santa eventId d a Hnd Ha), Hp.
  pose proof (populateReceiver_party _ _ _ Hr) as Hw.
  destruct (populateReceiver (a_receiverUserId a) d) as [p|]; [|done].
  simpl in Hw. injection Hw as Hw. by rewrite Hw, Hn.
Qed.

(** X11. The two reads agree: when no santa has two rows in the event, a
    santa who appears in an entry of [getAllAssignments] is answered by
    [getUserAssignment] with that entry's receiver number and that
    entry's receiver wishlist. *)
Theorem participant_read_agrees_with_full_mapping
    faults faults' eventId d xs x :
  getAllAssignments faults eventId d = Ok xs →
  x ∈ xs →
  NoDup (a_santaUserId <$> rowsOf eventId d) →
  faults' OpFindOne = false → faults' OpPopulate = false →
  getUserAssignment faults' eventId (party_id (full_santa x)) d
  = Ok (Some (mkUserAssignment (full_receiverNumber x)
                               (party_wishlist (full_receiver x)))).
Proof. apply reads_agree. Qed.

Lemma participant_read_agrees_with_full_mapping_witness :
  let x := mkFull (partyOf Scenario.user1) (partyOf Scenario.user2) 2 in
  let xs := [mkFull (partyOf Scenario.user2) (partyOf Scenario.user1) 1; x] in
  (getAllAssignments noFaults 2 Cases.reversedStore = Ok xs ∧ x ∈ xs ∧
   NoDup (a_santaUserId <$> rowsOf 2 Cases.reversedStore)) ∧
  getUserAssignment noFaults 2 (party_id (full_santa x)) Cases.reversedStore
  = Ok (Some (mkUserAssignment (full_receiverNumber x)
                               (party_wishlist (full_receiver x)))).
Proof.
  intros x xs.
  assert (H1 : getAllAssignments noFaults 2 Cases.reversedStore = Ok xs)
    by (vm_compute; reflexivity).
  assert (H2 : x ∈ xs) by (right; left).
  assert (H3 : NoDup (a_santaUserId <$> rowsOf 2 Cases.reversedStore)).
  { apply (bool_decide_unpack _). vm_compute. exact I. }
  split; [exact (conj H1 (conj H2 H3))|].
  exact (participant_read_agrees_with_full_mapping
           noFaults noFaults 2 Cases.reversedStore xs x H1 H2 H3
           eq_refl eq_refl).
Defined.

(** ** The handlers of the assignment routes *)

Section HandlerFacts.
Context (libraryMessage : Exn → string).
Implicit Types (faultsC faultsS : StoreOp → bool).

Lemma triggerAssignment_200 faultsC faultsS id w r w' :
  triggerAssignment libraryMessage faultsC faultsS id w = (r, w') →
  statusCode r = 200 →
  ∃ ev, eventOf id (db w) = Some ev ∧ ev_status ev ≠ assigned ∧
        assignSecretSanta faultsS id w = (Ok tt, w').
Proof.
  unfold triggerAssignment.
  destruct (faultsC OpFindEvent); [by intros [= <- <-]|].
  destruct (eventOf id (db w)) as [ev|] eqn:Hev; [|by intros [= <- <-]].
  case_decide as Hst; [by intros [= <- <-]|].
  rewrite (eventOf_id _ _ _ Hev).
  destruct (assignSecretSanta faultsS id w) as [[[]|e] w1] eqn:Hrun.
  - intros [= <- <-] _. by exists ev.
  - by intros [= <- <-].
Qed.

Lemma triggerAssignment_not_200 faultsC faultsS id w r w' :
  triggerAssignment libraryMessage faultsC faultsS id w = (r, w') →
  statusCode r ≠ 200 →
  db w' = db w ∧
  (statusCode r = 400 ∨ statusCode r = 404 ∨ statusCode r = 500).
Proof.
  unfold triggerAssignment.
  destruct (faultsC OpFindEvent); [intros [= <- <-]; simpl; auto|].
  destruct (eventOf id (db w)) as [ev|] eqn:Hev;
    [|intros [= <- <-]; simpl; auto].
  case_decide as Hst; [intros [= <- <-]; simpl; auto|].
  destruct (assignSecretSanta faultsS (ev_id ev) w) as [[[]|e] w1] eqn:Hrun.
  - by intros [= <- <-].
  - intros [= <- <-] _. split; [|simpl; auto].
    by apply assignSecretSanta_Throw in Hrun.
Qed.
End HandlerFacts.

(** X12. Once [triggerAssignment] has answered 200 for an event, a further
    trigger for that event (with the event readable) is answered 400
    "Assignments already completed for this event" and changes nothing:
    the handler never re-runs an assigned event. *)
Theorem second_trigger_is_refused
    libraryMessage faultsC faultsS faultsC' faultsS' id w r w' :
  triggerAssignment libraryMessage faultsC faultsS id w = (r, w') →
  statusCode r = 200 →
  faultsC' OpFindEvent = false →
  triggerAssignment libraryMessage faultsC' faultsS' id w'
  = (status 400 (MessageBody "Assignments already completed for this event"),
     w').
Proof.
  intros Hfirst H200 Hf.
  destruct (triggerAssignment_200 _ _ _ _ _ _ _ Hfirst H200)
    as (ev & Hev & Hst & Hrun).
  apply assignSecretSanta_effect in Hrun as (event & g1 & rows & He).
  pose proof (RunEffect_status _ _ _ _ _ _ He) as Hassigned.
  unfold triggerAssignment. rewrite Hf.
  destruct (eventOf id (db w')) as [ev'|]; [|done].
  simpl in Hassigned. injection Hassigned as Hassigned.
  by rewrite decide_True.
Qed.

Lemma second_trigger_is_refused_witness :
  let first := triggerAssignment Cases.plainMessage noFaults noFaults 1
                                 Scenario.world in
  (first = (first.1, first.2) ∧ statusCode first.1 = 200 ∧
   noFaults OpFindEvent = false) ∧
  triggerAssignment Cases.plainMessage noFaults noFaults 1 first.2
  = (status 400 (MessageBody "Assignments already completed for this event"),
     first.2).
Proof.
  intros first.
  assert (H1 : first = (first.1, first.2)) by (by destruct first).
  assert (H2 : statusCode first.1 = 200) by (vm_compute; reflexivity).
  split; [exact (conj H1 (conj H2 eq_refl))|].
  exact (second_trigger_is_refused Cases.plainMessage noFaults noFaults
           noFaults noFaults 1 Scenario.world _ _ H1 H2 eq_refl).
Defined.

(** X13. [triggerAssignment] answers 200, 400, 404 or 500.  Unless it
    answers 200 the store is unchanged; when it answers 200 the event
    existed with a status other than [assigned], the service ran
    successfully and the event's status is now [assigned]. *)
Theorem trigger_changes_the_store_only_on_200
    libraryMessage faultsC faultsS id w r w' :
  triggerAssignment libraryMessage faultsC faultsS id w = (r, w') →
  (statusCode r ≠ 200 →
   db w' = db w ∧
   (statusCode r = 400 ∨ statusCode r = 404 ∨ statusCode r = 500)) ∧
  (statusCode r = 200 →
   (∃ ev, eventOf id (db w) = Some ev ∧ ev_status ev ≠ assigned) ∧
   assignSecretSanta faultsS id w = (Ok tt, w') ∧
   ev_status <$> eventOf id (db w') = Some assigned).
Proof.
  intros Hrun. split.
  - by apply (triggerAssignment_not_200 libraryMessage faultsC faultsS id w).
  - intros H200.
    destruct (triggerAssignment_200 _ _ _ _ _ _ _ Hrun H200)
      as (ev & Hev & Hst & Hsvc).
    split; [by exists ev|]. split; [done|].
    apply assignSecretSanta_effect in Hsvc as (event & g1 & rows & He).
    by eapply RunEffect_status.
Qed.

Lemma trigger_changes_the_store_only_on_200_witness :
  let run := triggerAssignment Cases.plainMessage noFaults
                               Scenario.insertFails 1 Scenario.world in
  run = (run.1, run.2) ∧
  (statusCode run.1 ≠ 200 →
   db run.2 = db Scenario.world ∧
   (statusCode run.1 = 400 ∨ statusCode run.1 = 404 ∨
    statusCode run.1 = 500)) ∧
  (statusCode run.1 = 200 →
   (∃ ev, eventOf 1 (db Scenario.world) = Some ev ∧
          ev_status ev ≠ assigned) ∧
   assignSecretSanta Scenario.insertFails 1 Scenario.world = (Ok tt, run.2) ∧
   ev_status <$> eventOf 1 (db run.2) = Some assigned).
Proof.
  intros run.
  assert (H : run = (run.1, run.2)) by (by destruct run).
  split; [exact H|].
  exact (trigger_changes_the_store_only_on_200 Cases.plainMessage noFaults
           Scenario.insertFails 1 Scenario.world _ _ H).
Defined.

(** X14. With a store that answers every call and participants with
    pairwise different identifiers, the answer of [triggerAssignment] is:
    404 "Event not found" for a missing event, 400 for an event already
    [assigned], 500 carrying the service's own message "Need at least 2
    participants for Secret Santa" for fewer than two participants, and
    200 otherwise. *)
Theorem trigger_response_table libraryMessage faultsC faultsS id w :
  (∀ op, faultsC op = false) → (∀ op, faultsS op = false) →
  NoDup (u_id <$> participantsOf id (db w)) →
  (triggerAssignment libraryMessage faultsC faultsS id w).1
  = match eventOf id (db w) with
    | None => status 404 (MessageBody "Event not found")
    | Some ev =>
        if decide (ev_status ev = assigned)
        then status 400 (MessageBody
               "Assignments already completed for this event")
        else if decide (length (participantsOf id (db w)) < 2)
        then status 500 (MessageBody
               "Need at least 2 participants for Secret Santa")
        else json (MessageBody
               "Secret Santa assignments completed successfully")
    end.
Proof.
  intros HfC HfS Hnd. unfold triggerAssignment. rewrite HfC.
  destruct (eventOf id (db w)) as [ev|] eqn:Hev; [|done].
  case_decide as Hst; [done|].
  rewrite (eventOf_id _ _ _ Hev).
  pose proof (assignSecretSanta_outcome faultsS id w HfS Hnd) as Hout.
  rewrite Hev in Hout.
  destruct (assignSecretSanta faultsS id w) as [res w1]. simpl in Hout.
  rewrite Hout. by case_decide.
Qed.

Lemma trigger_response_table_witness :
  ((∀ op, noFaults op = false) ∧
   NoDup (u_id <$> participantsOf 3 (db Scenario.world))) ∧
  (triggerAssignment Cases.plainMessage noFaults noFaults 3 Scenario.world).1
  = match eventOf 3 (db Scenario.world) with
    | None => status 404 (MessageBody "Event not found")
    | Some ev =>
        if decide (ev_status ev = assigned)
        then status 400 (MessageBody
               "Assignments already completed for this event")
        else if decide (length (participantsOf 3 (db Scenario.world)) < 2)
        then status 500 (MessageBody
               "Need at least 2 participants for Secret Santa")
        else json (MessageBody
               "Secret Santa assignments completed successfully")
    end.
Proof.
  assert (H1 : ∀ op, noFaults op = false) by reflexivity.
  assert (H2 : NoDup (u_id <$> participantsOf 3 (db Scenario.world))).
  { apply (bool_decide_unpack _). vm_compute. exact I. }
  split; [exact (conj H1 H2)|].
  exact (trigger_response_table Cases.plainMessage noFaults noFaults 3
           Scenario.world H1 H1 H2).
Defined.

(** X15. [getMyAssignment] answers 200 only to an authenticated user, for
    an event whose status is [assigned], and then the body is built from
    a row of that event whose santa is the requester: the row's number and
    the wishlist of the row's receiver. *)
Theorem my_assignment_shows_own_row_only
    (faultsC faultsS : StoreOp → bool) user id d :
  statusCode (getMyAssignment faultsC faultsS user id d) = 200 →
  ∃ userId ev a receiver,
    user = Some userId ∧
    eventOf id d = Some ev ∧ ev_status ev = assigned ∧
    a ∈ assignments d ∧ a_eventId a = id ∧ a_santaUserId a = userId ∧
    receiver ∈ users d ∧ u_id receiver = a_receiverUserId a ∧
    body (getMyAssignment faultsC faultsS user id d)
    = AssignmentBody (mkUserAssignment (a_receiverNumber a)
                                       (u_wishlist receiver)).
Proof.
  unfold getMyAssignment.
  destruct user as [userId|]; [|done].
  destruct (faultsC OpFindEvent); [done|].
  destruct (eventOf id d) as [ev|] eqn:Hev; [|done].
  case_decide as Hst; [done|].
  rewrite (eventOf_id _ _ _ Hev).
  destruct (getUserAssignment faultsS id userId d) as [[r|]|e] eqn:Hget;
    [|done..].
  intros _.
  apply getUserAssignment_Some in Hget
    as (a & receiver & Ha & Hae & Has & Hr & Hrid & ->).
  exists userId, ev, a, receiver. repeat split; try done.
Qed.

Lemma my_assignment_shows_own_row_only_witness :
  statusCode (getMyAssignment noFaults noFaults (Some 21) 2 Cases.markedStore)
  = 200 ∧
  ∃ userId ev a receiver,
    Some 21 = Some userId ∧
    eventOf 2 Cases.markedStore = Some ev ∧ ev_status ev = assigned ∧
    a ∈ assignments Cases.markedStore ∧ a_eventId a = 2 ∧
    a_santaUserId a = userId ∧
    receiver ∈ users Cases.markedStore ∧
    u_id receiver = a_receiverUserId a ∧
    body (getMyAssignment noFaults noFaults (Some 21) 2 Cases.markedStore)
    = AssignmentBody (mkUserAssignment (a_receiverNumber a)
                                       (u_wishlist receiver)).
Proof.
  assert (H : statusCode (getMyAssignment noFaults noFaults (Some 21) 2
                            Cases.markedStore) = 200)
    by (vm_compute; reflexivity).
  split; [exact H|].
  exact (my_assignment_shows_own_row_only noFaults noFaults (Some 21) 2
           Cases.markedStore H).
Defined.

Lemma RunEffect_pairs eventId w w' event g1 rows :
  RunEffect eventId w w' event g1 rows →
  (λ r, (a_santaUserId r, a_receiverUserId r)) <$> rows
  = zip (u_id <$> participantsOf eventId (db w))
        (cyclicShift (u_id <$> participantsOf eventId (db w))).
Proof.
  intros He. rewrite fmap_pair_zip.
  rewrite (eff_santas _ _ _ _ _ _ He), (eff_receivers _ _ _ _ _ _ He).
  by rewrite fmap_cyclicShift.
Qed.

Lemma participants_NoDup eventId d :
  NoDup (u_id <$> users d) → NoDup (u_id <$> participantsOf eventId d).
Proof.
  intros Hnd. apply (sublist_NoDup _ (u_id <$> users d) Hnd).
  apply fmap_sublist. unfold participantsOf. apply sublist_filter.
Qed.

(** What a participant reads from the store left by a successful run. *)
Lemma getUserAssignment_after_run faults faults' eventId w w' p :
  NoDup (u_id <$> users (db w)) →
  assignSecretSanta faults eventId w = (Ok tt, w') →
  faults' OpFindOne = false → faults' OpPopulate = false →
  p ∈ participantsOf eventId (db w) →
  ∃ n q,
    q ∈ participantsOf eventId (db w) ∧ u_id q ≠ u_id p ∧
    1 ≤ n ≤ length (participantsOf eventId (db w)) ∧
    (u_id p, u_id q)
      ∈ zip (u_id <$> participantsOf eventId (db w))
            (cyclicShift (u_id <$> participantsOf eventId (db w))) ∧
    getUserAssignment faults' eventId (u_id p) (db w')
    = Ok (Some (mkUserAssignment n (u_wishlist q))).
Proof.
  intros Hnd (event & g1 & rows & He)%assignSecretSanta_effect Hf Hp Hin.
  pose proof (participants_NoDup eventId _ Hnd) as HndP.
  pose proof (eff_rowsOf _ _ _ _ _ _ He) as Hrows.
  pose proof (eff_users _ _ _ _ _ _ He) as Hus.
  pose proof (eff_santas _ _ _ _ _ _ He) as Hs.
  destruct (RunEffect_complete _ _ _ _ _ _ He HndP)
    as (_ & _ & Hrp & Hself).
  pose proof (RunEffect_numbers _ _ _ _ _ _ He) as Hnum.
  pose proof (RunEffect_pairs _ _ _ _ _ _ He) as Hpairs.
  (* the row of [p] *)
  assert (Hrow : ∃ a, a ∈ rows ∧ a_santaUserId a = u_id p).
  { pose proof (list_elem_of_fmap_2 u_id _ _ Hin) as Hid.
    rewrite <- Hs in Hid.
    apply list_elem_of_fmap in Hid as (a & Ha & Hina). by exists a. }
  destruct Hrow as (a & Ha & Hsa).
  (* its receiver *)
  pose proof (list_elem_of_fmap_2 a_receiverUserId _ _ Ha) as Hrid.
  rewrite Hrp in Hrid. apply list_elem_of_fmap in Hrid as (q & Hq & Hinq).
  exists (a_receiverNumber a), q.
  split; [done|]. split.
  { rewrite Forall_forall in Hself. specialize (Hself a Ha). congruence. }
  split.
  { pose proof (list_elem_of_fmap_2 a_receiverNumber _ _ Ha) as Hn.
    rewrite Hnum in Hn. apply elem_of_seq in Hn. lia. }
  split.
  { rewrite <- Hpairs, <- Hsa, <- Hq.
    by apply (list_elem_of_fmap_2
                (λ r, (a_santaUserId r, a_receiverUserId r))). }
  erewrite (getUserAssignment_found faults' eventId (u_id p) (db w') a q);
    [done|done|done| |].
  - rewrite <- Hsa. apply findOne_unique_santa.
    + by rewrite Hrows, Hs.
    + by rewrite Hrows.
  - rewrite Hus, Hq. apply head_filter_unique_id; [done|].
    by eapply participantsOf_users.
Qed.

(** X16. After [triggerAssignment] has answered 200 on a store whose users
    have pairwise different identifiers, every participant who asks
    [getMyAssignment] (store answering) gets 200 with a number between 1
    and N and the wishlist of another participant: the one listed just
    before them in the participant list (the last one for the first). *)
Theorem every_participant_reads_an_assignment
    libraryMessage faultsC faultsS faultsC' faultsS' id w r w' p :
  NoDup (u_id <$> users (db w)) →
  triggerAssignment libraryMessage faultsC faultsS id w = (r, w') →
  statusCode r = 200 →
  faultsC' OpFindEvent = false →
  faultsS' OpFindOne = false → faultsS' OpPopulate = false →
  p ∈ participantsOf id (db w) →
  ∃ n q,
    q ∈ participantsOf id (db w) ∧ u_id q ≠ u_id p ∧
    1 ≤ n ≤ length (participantsOf id (db w)) ∧
    (u_id p, u_id q)
      ∈ zip (u_id <$> participantsOf id (db w))
            (cyclicShift (u_id <$> participantsOf id (db w))) ∧
    getMyAssignment faultsC' faultsS' (Some (u_id p)) id (db w')
    = json (AssignmentBody (mkUserAssignment n (u_wishlist q))).
Proof.
  intros Hnd Htrig H200 HfC Hf Hp Hin.
  destruct (triggerAssignment_200 _ _ _ _ _ _ _ Htrig H200)
    as (ev & Hev & Hst & Hrun).
  destruct (getUserAssignment_after_run faultsS faultsS' id w w' p
              Hnd Hrun Hf Hp Hin) as (n & q & Hq & Hne & Hn & Hpair & Hget).
  exists n, q. repeat (split; [done|]).
  pose proof Hrun as (event & g1 & rows & He)%assignSecretSanta_effect.
  pose proof (RunEffect_status _ _ _ _ _ _ He) as Hassigned.
  unfold getMyAssignment. rewrite HfC.
  destruct (eventOf id (db w')) as [ev'|] eqn:Hev'; [|done].
  simpl in Hassigned. injection Hassigned as Hassigned.
  rewrite decide_False by (intros Hneq; by apply Hneq).
  by rewrite (eventOf_id _ _ _ Hev'), Hget.
Qed.

Lemma every_participant_reads_an_assignment_witness :
  let first := triggerAssignment Cases.plainMessage noFaults noFaults 1
                                 Scenario.world in
  (NoDup (u_id <$> users (db Scenario.world)) ∧
   first = (first.1, first.2) ∧ statusCode first.1 = 200 ∧
   Scenario.bob ∈ participantsOf 1 (db Scenario.world)) ∧
  ∃ n q,
    q ∈ participantsOf 1 (db Scenario.world) ∧
    u_id q ≠ u_id Scenario.bob ∧
    1 ≤ n ≤ length (participantsOf 1 (db Scenario.world)) ∧
    (u_id Scenario.bob, u_id q)
      ∈ zip (u_id <$> participantsOf 1 (db Scenario.world))
            (cyclicShift (u_id <$> participantsOf 1 (db Scenario.world))) ∧
    getMyAssignment noFaults noFaults (Some (u_id Scenario.bob)) 1
                    (db first.2)
    = json (AssignmentBody (mkUserAssignment n (u_wishlist q))).
Proof.
  intros first.
  assert (H1 : NoDup (u_id <$> users (db Scenario.world))).
  { apply (bool_decide_unpack _). vm_compute. exact I. }
  assert (H2 : first = (first.1, first.2)) by (by destruct first).
  assert (H3 : statusCode first.1 = 200) by (vm_compute; reflexivity).
  assert (H4 : Scenario.bob ∈ participantsOf 1 (db Scenario.world)).
  { apply (bool_decide_unpack _). vm_compute. exact I. }
  split; [exact (conj H1 (conj H2 (conj H3 H4)))|].
  exact (every_participant_reads_an_assignment Cases.plainMessage
           noFaults noFaults noFaults noFaults 1 Scenario.world _ _
           Scenario.bob H1 H2 H3 eq_refl eq_refl eq_refl H4).
Defined.

(** ** The CSV export *)

Lemma countChar_app c s1 s2 :
  countChar c (s1 +:+ s2) = countChar c s1 + countChar c s2.
Proof. induction s1 as [|c' s1 IH]; simpl; [done|]. rewrite IH. lia. Qed.

Lemma countChar_replaceCommas s : countChar ","%char (replaceCommas s) = 0.
Proof.
  induction s as [|c s IH]; simpl; [done|]. rewrite IH.
  destruct (Ascii.eqb c ","%char) eqn:Hc; simpl; [done|]. by rewrite Hc.
Qed.

Lemma countChar_pretty_N_char x : Ascii.eqb (pretty_N_char x) ","%char = false.
Proof. unfold pretty_N_char. by repeat case_match. Qed.

Lemma countChar_pretty_N_go x s :
  countChar ","%char (pretty_N_go x s) = countChar ","%char s.
Proof.
  revert s. induction (N.lt_wf_0 x) as [x _ IH]; intros s.
  destruct (decide (0 < x)%N) as [Hx|Hx].
  - rewrite pretty_N_go_step by done.
    rewrite IH by (apply N.div_lt; [done|lia]). simpl.
    by rewrite countChar_pretty_N_char.
  - assert (x = 0%N) as -> by lia. by rewrite pretty_N_go_0.
Qed.

Lemma countChar_pretty_nat (n : nat) : countChar ","%char (pretty n) = 0.
Proof.
  unfold pretty, pretty_nat, pretty, pretty_N.
  case_decide; [done|]. apply countChar_pretty_N_go.
Qed.

(** X17. A data row of the CSV export has the 5 separating commas of the
    header plus the commas contained in the two e-mail addresses: commas
    in names and in the wish text are replaced and never add a column,
    commas in an e-mail address are kept and do. *)
Theorem csv_row_separators (a : FullAssignment) :
  countChar ","%char csvHeader = 5 ∧
  countChar ","%char (csvRow a)
  = 5 + countChar ","%char (party_email (full_santa a))
      + countChar ","%char (party_email (full_receiver a)).
Proof.
  split; [reflexivity|]. unfold csvRow.
  rewrite !countChar_app, !countChar_replaceCommas, countChar_pretty_nat.
  simpl. lia.
Qed.

(** ** The two administrator reads go together *)


(** ** [updateProfile] *)

Lemma userOf_saveUser_same user d :
  is_Some (userOf (u_id user) d) →
  userOf (u_id user) (saveUser user d) = Some user.
Proof.
  unfold userOf, saveUser. simpl. intros [u Hu].
  induction (users d) as [|v us IH]; [done|].
  rewrite fmap_cons. rewrite filter_cons in Hu.
  destruct (decide (u_id v = u_id user)) as [Heq|Hne].
  - by rewrite filter_cons_True.
  - rewrite filter_cons_False by done. by apply IH.
Qed.

Lemma userOf_saveUser_other user d id :
  id ≠ u_id user → userOf id (saveUser user d) = userOf id d.
Proof.
  unfold userOf, saveUser. simpl. intros Hne. f_equal.
  induction (users d) as [|v us IH]; [done|].
  rewrite fmap_cons, !filter_cons, IH.
  destruct (decide (u_id v = u_id user)) as [Heq|Hneq]; [|done].
  rewrite !decide_False by congruence. done.
Qed.

Lemma userOf_id id d u : userOf id d = Some u → u_id u = id.
Proof.
  intros Hu%head_Some_elem_of. by apply list_elem_of_filter in Hu as [? _].
Qed.

Lemma updateProfile_200 faults r d resp d' :
  updateProfile faults r d = (resp, d') →
  statusCode resp = 200 →
  ∃ id u, req_user r = Some id ∧ userOf id d = Some u ∧
          wishlistLocked r u d = false ∧
          d' = saveUser (applyProfile r u) d.
Proof.
  unfold updateProfile.
  destruct (validationPassed r); simpl; [|by intros [= <- <-]].
  destruct (req_user r) as [id|]; [|by intros [= <- <-]].
  destruct (failFindUser faults); [by intros [= <- <-]|].
  destruct (userOf id d) as [u|] eqn:Hu; [|by intros [= <- <-]].
  destruct (bool_decide (is_Some (u_eventId u)) && failFindEvent faults);
    [by intros [= <- <-]|].
  destruct (wishlistLocked r u d) eqn:Hlock; [by intros [= <- <-]|].
  destruct (failSaveUser faults); [by intros [= <- <-]|].
  intros [= <- <-] _. by exists id, u.
Qed.

Lemma updateProfile_not_200 faults r d resp d' :
  updateProfile faults r d = (resp, d') →
  statusCode resp ≠ 200 → d' = d.
Proof.
  unfold updateProfile.
  destruct (validationPassed r); simpl; [|by intros [= <- <-]].
  destruct (req_user r) as [id|]; [|by intros [= <- <-]].
  destruct (failFindUser faults); [by intros [= <- <-]|].
  destruct (userOf id d) as [u|] eqn:Hu; [|by intros [= <- <-]].
  destruct (bool_decide (is_Some (u_eventId u)) && failFindEvent faults);
    [by intros [= <- <-]|].
  destruct (wishlistLocked r u d) eqn:Hlock; [by intros [= <- <-]|].
  destruct (failSaveUser faults); [by intros [= <- <-]|].
  by intros [= <- <-].
Qed.

Lemma updateProfile_cases faults r d resp d' :
  updateProfile faults r d = (resp, d') →
  d' = d ∨
  ∃ id u, req_user r = Some id ∧ userOf id d = Some u ∧
          wishlistLocked r u d = false ∧
          d' = saveUser (applyProfile r u) d.
Proof.
  intros Hup. destruct (decide (statusCode resp = 200)) as [H200|Hne].
  - right. by eapply updateProfile_200.
  - left. by eapply updateProfile_not_200.
Qed.

(** X19. [updateProfile] changes nothing but the name and the wishlist of
    the requester's own document: events and assignment rows are
    untouched, every other user's document is untouched, and the
    requester's [_id], e-mail address and event membership stay as they
    were.  Unless it answers 200 the store is unchanged. *)
Theorem update_profile_touches_own_name_and_wishlist_only
    faults r d resp d' :
  updateProfile faults r d = (resp, d') →
  events d' = events d ∧
  assignments d' = assignments d ∧
  (statusCode resp ≠ 200 → d' = d) ∧
  (∀ id, req_user r ≠ Some id → userOf id d' = userOf id d) ∧
  (∀ id u, req_user r = Some id → userOf id d = Some u →
     ∃ u', userOf id d' = Some u' ∧ u_id u' = u_id u ∧
           u_email u' = u_email u ∧ u_eventId u' = u_eventId u).
Proof.
  intros Hup.
  split; [|split; [|split; [|split]]].
  - destruct (updateProfile_cases _ _ _ _ _ Hup)
      as [->|(id & u & _ & _ & _ & ->)]; done.
  - destruct (updateProfile_cases _ _ _ _ _ Hup)
      as [->|(id & u & _ & _ & _ & ->)]; done.
  - by apply (updateProfile_not_200 faults r d).
  - intros id Hid.
    destruct (updateProfile_cases _ _ _ _ _ Hup)
      as [->|(id0 & u & Hreq & Hu & _ & ->)]; [done|].
    apply userOf_saveUser_other. simpl.
    rewrite (userOf_id _ _ _ Hu). congruence.
  - intros id u Hreq Hu.
    destruct (updateProfile_cases _ _ _ _ _ Hup)
      as [->|(id0 & u0 & Hreq0 & Hu0 & _ & ->)]; [by exists u|].
    assert (id0 = id) as -> by congruence.
    assert (u0 = u) as -> by congruence.
    exists (applyProfile r u). split; [|done].
    pose proof (userOf_id _ _ _ Hu) as Hid.
    rewrite <- Hid at 1.
    apply (userOf_saveUser_same (applyProfile r u) d). simpl.
    rewrite Hid. by eexists.
Qed.

Lemma update_profile_touches_own_name_and_wishlist_only_witness :
  let run := updateProfile Cases.noProfileFaults Cases.wishRequest
                           Scenario.store in
  run = (run.1, run.2) ∧
  events run.2 = events Scenario.store ∧
  assignments run.2 = assignments Scenario.store ∧
  (statusCode run.1 ≠ 200 → run.2 = Scenario.store) ∧
  (∀ id, req_user Cases.wishRequest ≠ Some id →
         userOf id run.2 = userOf id Scenario.store) ∧
  (∀ id u, req_user Cases.wishRequest = Some id →
     userOf id Scenario.store = Some u →
     ∃ u', userOf id run.2 = Some u' ∧ u_id u' = u_id u ∧
           u_email u' = u_email u ∧ u_eventId u' = u_eventId u).
Proof.
  intros run.
  assert (H : run = (run.1, run.2)) by (by destruct run).
  split; [exact H|].
  exact (update_profile_touches_own_name_and_wishlist_only
           Cases.noProfileFaults Cases.wishRequest Scenario.store _ _ H).
Defined.

Lemma orElse_nonempty value fallback :
  fallback ≠ "" → orElse value fallback ≠ "".
Proof.
  intros Hne. unfold orElse. destruct value as [v|]; [|done].
  by case_decide.
Qed.

(** X20. [updateProfile] never erases a field: a name, wish text or link
    that was non-empty is still non-empty after the call, whatever the
    request (an empty or missing value keeps the old one). *)
Theorem update_profile_never_erases faults r d resp d' id u :
  updateProfile faults r d = (resp, d') →
  req_user r = Some id →
  userOf id d = Some u →
  ∃ u', userOf id d' = Some u' ∧
        (u_name u ≠ "" → u_name u' ≠ "") ∧
        (wishText (u_wishlist u) ≠ "" → wishText (u_wishlist u') ≠ "") ∧
        (link (u_wishlist u) ≠ "" → link (u_wishlist u') ≠ "").
Proof.
  intros Hup Hreq Hu.
  destruct (updateProfile_cases _ _ _ _ _ Hup)
    as [->|(id0 & u0 & Hreq0 & Hu0 & _ & ->)]; [by exists u|].
  assert (id0 = id) as -> by congruence.
  assert (u0 = u) as -> by congruence.
  exists (applyProfile r u). split.
  - pose proof (userOf_id _ _ _ Hu) as Hid. rewrite <- Hid at 1.
    apply (userOf_saveUser_same (applyProfile r u) d). simpl.
    rewrite Hid. by eexists.
  - unfold applyProfile. simpl. split; [apply orElse_nonempty|].
    destruct (req_wishlist r) as [wl|]; simpl; [|done].
    split; apply orElse_nonempty.
Qed.

Lemma update_profile_never_erases_witness :
  let run := updateProfile Cases.noProfileFaults Cases.wishRequest
                           Scenario.store in
  (run = (run.1, run.2) ∧ req_user Cases.wishRequest = Some 22 ∧
   userOf 22 Scenario.store = Some Scenario.user2) ∧
  ∃ u', userOf 22 run.2 = Some u' ∧
        (u_name Scenario.user2 ≠ "" → u_name u' ≠ "") ∧
        (wishText (u_wishlist Scenario.user2) ≠ "" →
         wishText (u_wishlist u') ≠ "") ∧
        (link (u_wishlist Scenario.user2) ≠ "" →
         link (u_wishlist u') ≠ "").
Proof.
  intros run.
  assert (H1 : run = (run.1, run.2)) by (by destruct run).
  assert (H2 : req_user Cases.wishRequest = Some 22) by reflexivity.
  assert (H3 : userOf 22 Scenario.store = Some Scenario.user2)
    by (vm_compute; reflexivity).
  split; [exact (conj H1 (conj H2 H3))|].
  exact (update_profile_never_erases Cases.noProfileFaults Cases.wishRequest
           Scenario.store _ _ 22 Scenario.user2 H1 H2 H3).
Defined.

Lemma populateReceiver_userOf ref d :
  populateReceiver ref d
  = (λ u, mkPopulated (u_id u) (u_wishlist u)) <$> userOf ref d.
Proof. done. Qed.

Lemma getUserAssignment_saveUser faults eventId santa user d u :
  userOf (u_id user) d = Some u →
  u_wishlist user = u_wishlist u →
  getUserAssignment faults eventId santa (saveUser user d)
  = getUserAssignment faults eventId santa d.
Proof.
  intros Hu Hw. unfold getUserAssignment. simpl.
  destruct (faults OpFindOne); [done|].
  destruct (head (filter _ (assignments d))) as [a|]; [|done].
  destruct (faults OpPopulate); [done|].
  rewrite !populateReceiver_userOf.
  destruct (decide (a_receiverUserId a = u_id user)) as [Heq|Hne].
  - rewrite Heq, userOf_saveUser_same by (by eexists). rewrite Hu. simpl.
    by rewrite Hw.
  - by rewrite userOf_saveUser_other.
Qed.

(** X21. Once the requester's event is [assigned], [updateProfile] cannot
    change the requester's wishlist (a request that carries one is
    answered 400 and changes nothing), and so it cannot change what any
    santa reads through [getUserAssignment]. *)
Theorem wishlist_is_frozen_after_assignment
    faults r d resp d' id u eventId ev :
  updateProfile faults r d = (resp, d') →
  req_user r = Some id →
  userOf id d = Some u →
  u_eventId u = Some eventId →
  eventOf eventId d = Some ev →
  ev_status ev = assigned →
  (is_Some (req_wishlist r) → statusCode resp ≠ 200 ∧ d' = d) ∧
  (∃ u', userOf id d' = Some u' ∧ u_wishlist u' = u_wishlist u) ∧
  (∀ faults' e santa,
     getUserAssignment faults' e santa d'
     = getUserAssignment faults' e santa d).
Proof.
  intros Hup Hreq Hu Hev Hevent Hst.
  assert (Hlock : wishlistLocked r u d = bool_decide (is_Some (req_wishlist r))).
  { unfold wishlistLocked. rewrite Hev, Hevent.
    by rewrite (bool_decide_eq_true_2 _ Hst). }
  destruct (updateProfile_cases _ _ _ _ _ Hup)
    as [->|(id0 & u0 & Hreq0 & Hu0 & Hfree & ->)].
  - split; [|split; [by exists u|done]].
    intros Hwl. split; [|done]. intros H200.
    destruct (updateProfile_200 _ _ _ _ _ Hup H200)
      as (id1 & u1 & Hreq1 & Hu1 & Hfree & _).
    assert (u1 = u) as -> by congruence.
    rewrite Hlock in Hfree. by apply bool_decide_eq_false in Hfree.
  - assert (id0 = id) as -> by congruence.
    assert (u0 = u) as -> by congruence.
    rewrite Hlock in Hfree. apply bool_decide_eq_false in Hfree.
    assert (Hnone : req_wishlist r = None).
    { destruct (req_wishlist r); [|done]. destruct Hfree. by eexists. }
    assert (Hw : u_wishlist (applyProfile r u) = u_wishlist u).
    { unfold applyProfile. simpl. by rewrite Hnone. }
    pose proof (userOf_id _ _ _ Hu) as Hid.
    split; [intros Hwl; destruct Hfree; done|]. split.
    + exists (applyProfile r u). split; [|done].
      rewrite <- Hid at 1.
      apply (userOf_saveUser_same (applyProfile r u) d). simpl.
      rewrite Hid. by eexists.
    + intros faults' e santa.
      apply (getUserAssignment_saveUser _ _ _ _ _ u); [|done].
      simpl. by rewrite Hid.
Qed.

Lemma wishlist_is_frozen_after_assignment_witness :
  let run := updateProfile Cases.noProfileFaults Cases.wishRequest
                           Cases.markedStore in
  (run = (run.1, run.2) ∧ req_user Cases.wishRequest = Some 22 ∧
   userOf 22 Cases.markedStore = Some Scenario.user2 ∧
   u_eventId Scenario.user2 = Some 2 ∧
   eventOf 2 Cases.markedStore = Some (mkEvent 2 "Small Event" 25 0 assigned) ∧
   ev_status (mkEvent 2 "Small Event" 25 0 assigned) = assigned) ∧
  (is_Some (req_wishlist Cases.wishRequest) →
   statusCode run.1 ≠ 200 ∧ run.2 = Cases.markedStore) ∧
  (∃ u', userOf 22 run.2 = Some u' ∧
         u_wishlist u' = u_wishlist Scenario.user2) ∧
  (∀ faults' e santa,
     getUserAssignment faults' e santa run.2
     = getUserAssignment faults' e santa Cases.markedStore).
Proof.
  intros run.
  assert (H1 : run = (run.1, run.2)) by (by destruct run).
  assert (H2 : req_user Cases.wishRequest = Some 22) by reflexivity.
  assert (H3 : userOf 22 Cases.markedStore = Some Scenario.user2)
    by (vm_compute; reflexivity).
  assert (H4 : u_eventId Scenario.user2 = Some 2) by reflexivity.
  assert (H5 : eventOf 2 Cases.markedStore
               = Some (mkEvent 2 "Small Event" 25 0 assigned))
    by (vm_compute; reflexivity).
  split; [exact (conj H1 (conj H2 (conj H3 (conj H4 (conj H5 eq_refl)))))|].
  exact (wishlist_is_frozen_after_assignment Cases.noProfileFaults
           Cases.wishRequest Cases.markedStore _ _ 22 Scenario.user2 2 _
           H1 H2 H3 H4 H5 eq_refl).
Defined.

(** ** The origin check *)

Lemma startsWith_spec s sub :
  startsWith s sub = true ↔ ∃ post, s = sub +:+ post.
Proof.
  revert s. induction sub as [|c sub IH]; intros s; simpl.
  - split; [by exists s|by destruct s].
  - destruct s as [|c' s]; simpl.
    + split; [done|]. by intros (post & [=]).
    + rewrite andb_true_iff, Ascii.eqb_eq, IH. split.
      * intros [-> (post & ->)]. by exists post.
      * intros (post & [= -> ->]). split; [done|by exists post].
Qed.

Lemma includes_nil sub : includes "" sub = startsWith "" sub.
Proof. by destruct sub. Qed.

Lemma includes_cons c s sub :
  includes (String c s) sub = startsWith (String c s) sub || includes s sub.
Proof. done. Qed.

Lemma includes_spec s sub :
  includes s sub = true ↔ ∃ pre post, s = pre +:+ sub +:+ post.
Proof.
  induction s as [|c s IH].
  - rewrite includes_nil, startsWith_spec. split.
    + intros (post & ->). by exists "", post.
    + intros ([|c pre] & post & Heq); [by exists post|done].
  - rewrite includes_cons, orb_true_iff, startsWith_spec, IH. split.
    + intros [(post & ->)|(pre & post & ->)].
      * by exists "", post.
      * by exists (String c pre), post.
    + intros ([|c' pre] & post & Heq).
      * left. by exists post.
      * right. injection Heq as -> ->. by exists pre, post.
Qed.

Lemma localhost_allowed allowedOrigins :
  "http://localhost:5173" ∈ withLocalhost allowedOrigins.
Proof.
  unfold withLocalhost. case_decide; [done|].
  apply elem_of_app. right. by left.
Qed.

Lemma withLocalhost_keeps allowedOrigins allowed :
  allowed ∈ allowedOrigins → allowed ∈ withLocalhost allowedOrigins.
Proof.
  unfold withLocalhost. case_decide; [done|].
  intros Hin. apply elem_of_app. by left.
Qed.

Lemma originAllowed_spec allowedOrigins origin :
  originAllowed allowedOrigins (Some origin) = true ↔
  origin = "" ∨
  ∃ allowed,
    allowed ∈ withLocalhost allowedOrigins ∧
    ((∃ pre post, origin = pre +:+ allowed +:+ post) ∨
     (∃ pre post, allowed = pre +:+ origin +:+ post)).
Proof.
  unfold originAllowed. case_decide as Hempty; [by split; auto|].
  rewrite existsb_exists. split.
  - intros (allowed & Hin & Hor). right. exists allowed.
    split; [by apply list_elem_of_In|].
    apply orb_true_iff in Hor. by rewrite <- !includes_spec.
  - intros [->|(allowed & Hin & Hor)]; [done|]. exists allowed.
    split; [by apply list_elem_of_In|].
    apply orb_true_iff. by rewrite !includes_spec.
Qed.

(** X22. The origin check accepts a request without [Origin] header or
    with an empty one; it accepts an origin exactly when some allowed
    origin occurs inside it or it occurs inside some allowed origin, where
    [http://localhost:5173] always counts as allowed. *)
Theorem origin_check_is_substring_matching allowedOrigins :
  originAllowed allowedOrigins None = true ∧
  "http://localhost:5173" ∈ withLocalhost allowedOrigins ∧
  (∀ allowed, allowed ∈ allowedOrigins →
              allowed ∈ withLocalhost allowedOrigins) ∧
  (∀ origin,
     originAllowed allowedOrigins (Some origin) = true ↔
     origin = "" ∨
     ∃ allowed,
       allowed ∈ withLocalhost allowedOrigins ∧
       ((∃ pre post, origin = pre +:+ allowed +:+ post) ∨
        (∃ pre post, allowed = pre +:+ origin +:+ post))).
Proof.
  split; [done|]. split; [apply localhost_allowed|].
  split; [apply withLocalhost_keeps|]. apply originAllowed_spec.
Qed.

(** X23. Whatever the configuration, an origin that merely contains an
    allowed origin (for instance [http://localhost:5173] followed by any
    other host name) is accepted, and so is any fragment of an allowed
    origin. *)
Theorem origin_check_accepts_look_alikes allowedOrigins :
  (∀ pre post,
     originAllowed allowedOrigins
       (Some (pre +:+ "http://localhost:5173" +:+ post)) = true) ∧
  (∀ allowed pre post,
     allowed ∈ allowedOrigins →
     originAllowed allowedOrigins (Some (pre +:+ allowed +:+ post)) = true) ∧
  (∀ allowed pre fragment post,
     allowed ∈ allowedOrigins →
     allowed = pre +:+ fragment +:+ post →
     originAllowed allowedOrigins (Some fragment) = true).
Proof.
  split; [|split].
  - intros pre post. apply originAllowed_spec. right.
    exists "http://localhost:5173". split; [apply localhost_allowed|].
    left. by exists pre, post.
  - intros allowed pre post Hin. apply originAllowed_spec. right.
    exists allowed. split; [by apply withLocalhost_keeps|].
    left. by exists pre, post.
  - intros allowed pre fragment post Hin Heq. apply originAllowed_spec.
    right. exists allowed. split; [by apply withLocalhost_keeps|].
    right. by exists pre, post.
Qed.

Lemma origin_check_accepts_look_alikes_witness :
  originAllowed ["https://santa.example"]
    (Some "http://localhost:5173.evil.example") = true ∧
  originAllowed ["https://santa.example"]
    (Some "https://santa.example.evil.example") = true ∧
  originAllowed ["https://santa.example"] (Some "santa") = true.
Proof.
  split; [|split].
  - exact (proj1 (origin_check_accepts_look_alikes ["https://santa.example"])
             "" ".evil.example").
  - exact (proj1 (proj2 (origin_check_accepts_look_alikes
                           ["https://santa.example"]))
             "https://santa.example" "" ".evil.example"
             ltac:(by left)).
  - exact (proj2 (proj2 (origin_check_accepts_look_alikes
                           ["https://santa.example"]))
             "https://santa.example" "https://" "santa" ".example"
             ltac:(by left) eq_refl).
Defined.
